(** * Fonos voice server and Funcs client: a shallow embedding

    The development follows the two source files of the repository:

    - [mods/funcs/src/client/funcs.ts]: the [Funcs] client, whose methods
      wrap callback- and stream-based RPC calls in promises;
    - [mods/voice/src/server.ts]: the [VoiceServer], whose route callbacks
      dispatch webhooks, relay realtime messages and serve audio files.

    JavaScript objects used as records of named fields are finite maps from
    field names to values; a promise is a three-state cell on which
    [resolve] and [reject] only act while it is pending; the objects created
    with [new] live in a store indexed by references, so that two variables
    denote the same object exactly when they hold the same reference. *)

From Stdlib Require Import ZArith Lia.
From stdpp Require Import base option list strings gmap fin_maps.

Local Open Scope string_scope.
Local Open Scope list_scope.

(** ** JavaScript values, objects and completions *)

Module JS.

(** The primitive values carried by the fields this code reads and writes. *)
Inductive value : Type :=
| VStr (s : string)
| VNum (n : Z)
| VUndef.

#[global] Instance value_eq_dec : EqDecision value.
Proof. solve_decision. Defined.

(** An object literal [{k1: v1, ...}] with primitive fields. *)
Abbreviation object := (gmap string value).

(** An [Error] value, as thrown or passed to [reject]. *)
Record Error : Type := mkError { err_name : string; err_message : string }.

#[global] Instance Error_eq_dec : EqDecision Error.
Proof. solve_decision. Defined.

(** What running a piece of code ends in: a value, or a thrown exception.
    For an awaited promise, [Returns] is fulfilment and [Throws] rejection. *)
Inductive completion (A : Type) : Type :=
| Returns (a : A)
| Throws (e : Error).
Arguments Returns {A} a.
Arguments Throws {A} e.

(** The condition of [if (s)] for an optional string property. *)
Definition truthy (s : option string) : bool :=
  match s with
  | Some EmptyString => false
  | Some _ => true
  | None => false
  end.

End JS.

Export JS (value, VStr, VNum, VUndef, Error, mkError, completion, Returns, Throws).

(** ** Promises *)

Module Promise.

(** The state of a promise whose executor holds [resolve] and [reject]. *)
Inductive state (A : Type) : Type :=
| Pending
| Fulfilled (a : A)
| Rejected (e : Error).
Arguments Pending {A}.
Arguments Fulfilled {A} a.
Arguments Rejected {A} e.

(** [resolve(a)] settles a pending promise and does nothing otherwise. *)
Definition resolve {A} (a : A) (p : state A) : state A :=
  match p with
  | Pending => Fulfilled a
  | _ => p
  end.

(** [reject(e)] settles a pending promise and does nothing otherwise. *)
Definition reject {A} (e : Error) (p : state A) : state A :=
  match p with
  | Pending => Rejected e
  | _ => p
  end.

Definition settled {A} (p : state A) : bool :=
  match p with
  | Pending => false
  | _ => true
  end.

End Promise.

Export Promise (Pending, Fulfilled, Rejected).

(** ** The Funcs client ([mods/funcs/src/client/funcs.ts]) *)

Module Funcs.

(** *** Messages of the RPC service

    The generated protobuf classes are outside the source at hand; each is
    a record of the fields the client sets or reads, a getter [getX] being
    the projection of the same name. *)

Record Func : Type := mkFunc {
  getName : string;
  getImage : string;
  getInvocationCount : Z;
  getReplicas : Z;
  getAvailableReplicas : Z
}.

(** [FuncsPB.GetFuncRequest] and [FuncsPB.DeleteFuncRequest]: [new] then
    [setName]. *)
Record NameRequestPB : Type := { pb_name : string }.

Definition new_NameRequestPB : NameRequestPB := {| pb_name := "" |}.

Definition setName (n : string) (req : NameRequestPB) : NameRequestPB :=
  {| pb_name := n |}.

(** The caller's request objects ([../types]). *)
Record GetFuncRequest : Type := { gf_name : string }.
Record DeleteFuncRequest : Type := { df_name : string }.
Record DeployFuncRequest : Type := {
  dp_name : string;
  dp_baseImage : string;
  dp_pathToFunc : option string
}.

(** [FuncsPB.DeployFuncRequest], as [buildDeployFuncRequest] fills it. *)
Record DeployFuncRequestPB : Type := {
  dpb_name : string;
  dpb_baseImage : string
}.

(** A progress message of the deployment stream. *)
Definition message := string.

(** What the deployment stream emits: the three events the client listens
    to. *)
Inductive stream_event : Type :=
| Data (m : message)
| End_
| Error_ (e : Error).

(** The collaborators of the client: the RPC service reached through
    [super.getService()], which answers a unary call by invoking the callback
    with an error and a response, and a streaming call with the events of
    its stream; the storage client; and the helpers of [../utils]. *)
Record Env : Type := {
  svc_getFunc : NameRequestPB → option Error * option Func;
  svc_deleteFunc : NameRequestPB → option Error * JS.object;
  svc_deployFunc : DeployFuncRequestPB → list stream_event;
  buildDeployFuncRequest : DeployFuncRequest → DeployFuncRequestPB;
  cleanupTmpDir : string → completion unit;
  copyFuncAtTmp : string → string → completion unit;
  uploadObject : string → string → completion unit
}.

(** *** [getFunc] *)

(** The object literal passed to [resolve] in [getFunc]. *)
Definition func_fields (res : Func) : JS.object :=
  {[ "name" := VStr (getName res);
     "image" := VStr (getImage res);
     "invocationCount" := VNum (getInvocationCount res);
     "replicas" := VNum (getReplicas res);
     "availableReplicas" := VNum (getAvailableReplicas res) ]}.

(** What reading [getName] of a missing response throws, in the wording of
    recent runtimes. *)
Definition TypeError_undefined : Error :=
  mkError "TypeError" "Cannot read properties of undefined (reading 'getName')".

(** The callback [(e, res) => { if (e) reject(e); resolve({...}) }].  There
    is no [return] after [reject(e)]: the object literal is built in every
    case, and reading a getter of a missing [res] throws out of the
    callback.  The result is the promise and what the callback threw. *)
Definition getFunc_callback (e : option Error) (res : option Func)
    (p : Promise.state JS.object) : Promise.state JS.object * option Error :=
  let p1 := match e with
            | Some err => Promise.reject err p
            | None => p
            end in
  match res with
  | Some f => (Promise.resolve (func_fields f) p1, None)
  | None => (p1, Some TypeError_undefined)
  end.

Definition getFunc (env : Env) (request : GetFuncRequest)
    : Promise.state JS.object :=
  let req := setName (gf_name request) new_NameRequestPB in
  let '(e, res) := svc_getFunc env req in
  fst (getFunc_callback e res Pending).

(** *** [deleteFunc] *)

(** The callback [(e) => { if (e) reject(e); resolve({name: request.name}) }]:
    it declares no parameter for the response of the service. *)
Definition deleteFunc_callback (request : DeleteFuncRequest)
    (e : option Error) (p : Promise.state JS.object) : Promise.state JS.object :=
  let p1 := match e with
            | Some err => Promise.reject err p
            | None => p
            end in
  Promise.resolve {[ "name" := VStr (df_name request) ]} p1.

Definition deleteFunc (env : Env) (request : DeleteFuncRequest)
    : Promise.state JS.object :=
  let req := setName (df_name request) new_NameRequestPB in
  let '(e, _) := svc_deleteFunc env req in
  deleteFunc_callback request e Pending.

(** *** [deployFunc] *)

Section Deploy.
(** The caller's sink: [emitter] is an optional function, whose calls act
    on some state [S] of the caller. *)
Context {S : Type}.

(** The promise under construction and the caller's state. *)
Record deploy_state : Type := mkDeploy {
  promise : Promise.state unit;
  sink : S
}.

(** [stream.on("data", message => { if (emitter) emitter(message) })] *)
Definition on_data (emitter : option (message → S → S)) (m : message)
    (st : deploy_state) : deploy_state :=
  match emitter with
  | Some f => mkDeploy (promise st) (f m (sink st))
  | None => st
  end.

(** [stream.on("end", () => { resolve() })] *)
Definition on_end (st : deploy_state) : deploy_state :=
  mkDeploy (Promise.resolve tt (promise st)) (sink st).

(** [stream.on("error", e => { reject(e) })] *)
Definition on_error (e : Error) (st : deploy_state) : deploy_state :=
  mkDeploy (Promise.reject e (promise st)) (sink st).

(** The stream invokes the listener registered for each event it emits. *)
Definition dispatch (emitter : option (message → S → S))
    (st : deploy_state) (ev : stream_event) : deploy_state :=
  match ev with
  | Data m => on_data emitter m st
  | End_ => on_end st
  | Error_ e => on_error e st
  end.

Definition run_stream (emitter : option (message → S → S))
    (evs : list stream_event) (st : deploy_state) : deploy_state :=
  foldl (dispatch emitter) st evs.

(** The packaging steps guarded by [if (request.pathToFunc)]: each of them
    may throw, which ends the [async] function there. *)
Definition package (env : Env) (request : DeployFuncRequest) : completion unit :=
  if JS.truthy (dp_pathToFunc request) then
    match cleanupTmpDir env (dp_name request) with
    | Throws e => Throws e
    | Returns _ =>
        match copyFuncAtTmp env (default "" (dp_pathToFunc request))
                (dp_name request) with
        | Throws e => Throws e
        | Returns _ =>
            uploadObject env ("/tmp/" +:+ dp_name request +:+ ".tgz") "funcs"
        end
    end
  else Returns tt.

Definition deployFunc (env : Env) (request : DeployFuncRequest)
    (emitter : option (message → S → S)) (s : S) : deploy_state :=
  match package env request with
  | Throws e => mkDeploy (Rejected e) s
  | Returns _ =>
      let req := buildDeployFuncRequest env request in
      let stream := svc_deployFunc env req in
      run_stream emitter stream (mkDeploy Pending s)
  end.

End Deploy.

Arguments deploy_state : clear implicits.

(** The messages of a stream, in order, and its first terminal event. *)
Definition data_of (evs : list stream_event) : list message :=
  omap (λ ev, match ev with Data m => Some m | _ => None end) evs.

(** What the caller's state becomes when the messages [ms] are forwarded
    to the emitter, one call each, in order. *)
Definition forwarded {S} (emitter : option (message → S → S))
    (ms : list message) (s : S) : S :=
  match emitter with
  | Some f => foldl (λ acc m, f m acc) s ms
  | None => s
  end.

Fixpoint first_terminal (evs : list stream_event) : Promise.state unit :=
  match evs with
  | [] => Pending
  | Data _ :: evs' => first_terminal evs'
  | End_ :: _ => Fulfilled tt
  | Error_ e :: _ => Rejected e
  end.

End Funcs.

(** ** The pieces of the platform the server is written against *)

Module Express.

(** What [res.send] is given: a string or a [Buffer]. *)
Inductive body : Type :=
| Text (s : string)
| Binary (data : list Byte.byte).

(** An HTTP response object [res]: only what the route callbacks of this
    server read or write.  [endCalls] counts the calls of [end], those made
    by [send] included; header names are kept in lower case, as Node does. *)
Record Response : Type := mkResponse {
  statusCode : Z;
  headers : gmap string string;
  sent : option body;
  finished : bool;
  endCalls : nat
}.

(** The response Express hands to a route callback. *)
Definition new_response : Response :=
  mkResponse 200 ∅ None false 0.


(** [res.end()]: completes the response. *)
Definition end_ (res : Response) : Response :=
  mkResponse (statusCode res) (headers res) (sent res) true (S (endCalls res)).





End Express.

Module Fs.

(** A directory entry: a file with its bytes, or one that cannot be
    opened. *)
Inductive entry : Type :=
| File (data : list Byte.byte)
| Unreadable (err : Error).

Abbreviation filesystem := (gmap string entry).



End Fs.

(** ** The voice server ([mods/voice/src/server.ts]) *)

Module Voice.

(** *** Objects and references *)

Definition ref := nat.

(** A call-control instruction. *)
Definition action := string.

(** A [VoiceResponse] object: the two arguments its constructor is given,
    the request body and the event bus, and the actions added to it. *)
Record VoiceResponse : Type := mkVoiceResponse {
  vr_request : JS.object;
  vr_events : ref;
  vr_actions : list action
}.

(** Modelled from the spec: the class [VoiceResponse] is imported from
    [./voice], outside the source at hand.  Its action sequence
    ([vr_actions], empty at construction) and [addAction], which appends to
    it, follow section 4.3. *)
Definition addAction (a : action) (b : VoiceResponse) : VoiceResponse :=
  mkVoiceResponse (vr_request b) (vr_events b) (vr_actions b ++ [a]).

(** The objects the module creates with [new]. *)
Inductive obj : Type :=
| OVoiceEvents
| OVoiceResponse (b : VoiceResponse).

(** [new C(...)]: the object is put at the first free reference. *)
Definition alloc (o : obj) (store : list obj) : ref * list obj :=
  (length store, store ++ [o]).

(** *** Configuration *)

Definition defaultServerConfig : JS.object :=
  {[ "path" := VStr "/"; "port" := VNum 3000; "bind" := VStr "0.0.0.0" ]}.

(** [merge(target, source)] of the deepmerge package, on objects whose
    fields are primitive values: the destination first receives every key of
    the target, then every key of the source, a later write replacing an
    earlier one.  (This is for keys that are not names of members of
    [Object.prototype], such as [toString]: newer versions of the package
    pass over those in the source.  The fields of a configuration are not
    among them.) *)
Definition assign (src : JS.object) (dest : JS.object) : JS.object :=
  map_fold (λ key v d, <[key := v]> d) dest src.

Definition merge (target source : JS.object) : JS.object :=
  assign source (assign target ∅).

(** Reading a property: [undefined] when the object has no such key. *)
Definition get (key : string) (o : JS.object) : value :=
  default VUndef (o !! key).

Record VoiceServer : Type := mkVoiceServer { config : JS.object }.

(** *** The process *)

Inductive route : Type :=
| GET (path : value)
| POST (path : value)
| WS (path : value).

(** What the process does to the world outside the store. *)
Inductive effect : Type :=
| LogInitializing
| LogStarting (bind port : value)
| AppListen (port bind : value)
| Broadcast (bus : ref) (msg : string)
| UnhandledRejection (e : Error).

(** User code: what a handler does with the builder it is given.  It adds
    actions and reaches suspension points, then returns or throws. *)
Inductive cmd : Type :=
| AddAction (a : action)
| Await.

Definition script : Type := list cmd * completion unit.

(** A running invocation of the POST route callback: the request body, the
    builder [response], the HTTP response [res], what is left of the
    handler, and whether the callback has run to its end. *)
Record task : Type := mkTask {
  t_body : JS.object;
  t_builder : ref;
  t_res : nat;
  t_todo : list cmd;
  t_end : completion unit;
  t_done : bool
}.

(** The module's state: the objects created so far, the constant
    [voiceEvents], the instances of [VoiceServer], the routes of [app], the
    HTTP responses Express has created, the running callbacks and the
    effects so far. *)
Record Process : Type := mkProcess {
  store : list obj;
  voiceEvents : ref;
  servers : list VoiceServer;
  routes : list route;
  responses : list Express.Response;
  tasks : list task;
  log : list effect
}.

(** Loading the module: [const voiceEvents = new VoiceEvents()]. *)
Definition load : Process :=
  let '(bus, st) := alloc OVoiceEvents [] in
  mkProcess st bus [] [] [] [] [].

(** [init()]: logs and registers the realtime route. *)
Definition init (this : VoiceServer) (p : Process) : Process :=
  mkProcess (store p) (voiceEvents p) (servers p)
    (routes p ++ [WS (get "path" (config this))])
    (responses p) (tasks p) (log p ++ [LogInitializing]).

(** [new VoiceServer(config)], [config] defaulting to
    [defaultServerConfig]. *)
Definition constructor (cfg : option JS.object) (p : Process) : Process :=
  let this := mkVoiceServer (merge defaultServerConfig
                               (default defaultServerConfig cfg)) in
  init this
    (mkProcess (store p) (voiceEvents p) (servers p ++ [this]) (routes p)
       (responses p) (tasks p) (log p)).

(** [listen(handler, port)], [port] defaulting to [this.config.port] when
    it is left out or is [undefined]: the two routes, the log line and
    [app.listen]. *)
Definition listen (this : VoiceServer) (port : option value) (p : Process)
    : Process :=
  let port := match port with
              | Some VUndef | None => get "port" (config this)
              | Some v => v
              end in
  mkProcess (store p) (voiceEvents p) (servers p)
    (routes p ++ [GET (VStr "/tts/:file"); POST (get "path" (config this))])
    (responses p) (tasks p)
    (log p ++ [LogStarting (get "bind" (config this)) (get "port" (config this));
               AppListen port (get "bind" (config this))]).


(** The callback of the realtime route: [ws.on("message", msg =>
    voiceEvents.broadcast(msg))]. *)
Definition ws_callback (msg : string) (p : Process) : Process :=
  mkProcess (store p) (voiceEvents p) (servers p) (routes p) (responses p)
    (tasks p) (log p ++ [Broadcast (voiceEvents p) msg]).

(** The actions among the commands of a handler, and the broadcasts among
    the effects of the process. *)
Definition actions_of (cs : list cmd) : list action :=
  omap (λ c, match c with AddAction a => Some a | Await => None end) cs.

Definition broadcasts (l : list effect) : list (ref * string) :=
  omap (λ e, match e with Broadcast bus msg => Some (bus, msg) | _ => None end) l.

(** Whether a handler returned rather than threw. *)
Definition returned (c : completion unit) : bool :=
  match c with
  | Returns _ => true
  | Throws _ => false
  end.

Section Dispatcher.
(** The function given to [listen]. *)
Variable handler : JS.object → ref → script.

(** The callback of the POST route, up to the call of the handler:
    [const response = new VoiceResponse(req.body, voiceEvents)], then
    [handler(req.body, response)].  [res] is the response Express created
    for the request. *)
Definition post_callback (body : JS.object) (res : nat) (p : Process) : Process :=
  let '(response, st) :=
    alloc (OVoiceResponse (mkVoiceResponse body (voiceEvents p) [])) (store p) in
  let '(todo, fin) := handler body response in
  mkProcess st (voiceEvents p) (servers p) (routes p) (responses p)
    (tasks p ++ [mkTask body response res todo fin false]) (log p).

(** An inbound POST: Express creates [res] and calls the callback. *)
Definition http_post (body : JS.object) (p : Process) : Process :=
  post_callback body (length (responses p))
    (mkProcess (store p) (voiceEvents p) (servers p) (routes p)
       (responses p ++ [Express.new_response]) (tasks p) (log p)).

(** One command of the handler, on the builder it was given. *)
Definition exec (c : cmd) (builder : ref) (st : list obj) : list obj :=
  match c with
  | AddAction a =>
      match st !! builder with
      | Some (OVoiceResponse b) => <[builder := OVoiceResponse (addAction a b)]> st
      | _ => st
      end
  | Await => st
  end.

(** The end of the callback, once [await handler(req.body, response)] is
    over: [res.end()] after a normal return; when the handler threw (or the
    promise it returned was rejected), the [await] throws in turn, the
    callback ends there and its own promise is rejected.  There is no
    [try] around the [await], and Express 4 does not look at the promise a
    route callback returns: the rejection is left unhandled. *)
Definition finish (t : task) (p : Process) : Process :=
  match t_end t with
  | Returns _ =>
      mkProcess (store p) (voiceEvents p) (servers p) (routes p)
        (alter Express.end_ (t_res t) (responses p)) (tasks p) (log p)
  | Throws e =>
      mkProcess (store p) (voiceEvents p) (servers p) (routes p)
        (responses p) (tasks p) (log p ++ [UnhandledRejection e])
  end.

(** The scheduler runs the [k]-th callback one step further. *)
Definition resume (k : nat) (p : Process) : Process :=
  match tasks p !! k with
  | Some t =>
      if t_done t then p
      else
        match t_todo t with
        | c :: todo =>
            mkProcess (exec c (t_builder t) (store p)) (voiceEvents p)
              (servers p) (routes p) (responses p)
              (<[k := mkTask (t_body t) (t_builder t) (t_res t) todo (t_end t)
                        false]> (tasks p))
              (log p)
        | [] =>
            let p' := finish t p in
            mkProcess (store p') (voiceEvents p') (servers p') (routes p')
              (responses p')
              (<[k := mkTask (t_body t) (t_builder t) (t_res t) [] (t_end t)
                        true]> (tasks p'))
              (log p')
        end
  | None => p
  end.

(** What happens to the process: a server is constructed, a server
    listens, Express calls the POST callback for a request on the configured
    path, a realtime connection on that path receives a message, or the
    scheduler resumes a suspended callback. *)
Inductive event : Type :=
| NewServer (cfg : option JS.object)
| Listen (srv : nat) (port : option value)
| HttpPost (body : JS.object)
| WsMessage (msg : string)
| Resume (k : nat).

Definition step (p : Process) (ev : event) : Process :=
  match ev with
  | NewServer cfg => constructor cfg p
  | Listen srv port =>
      match servers p !! srv with
      | Some this => listen this port p
      | None => p
      end
  | HttpPost body => http_post body p
  | WsMessage msg => ws_callback msg p
  | Resume k => resume k p
  end.

Definition run (evs : list event) (p : Process) : Process :=
  foldl step p evs.

(** The builder and the response of the [k]-th callback: the builder is
    the object created for it, bound to the bus and holding the actions its
    own handler has added so far; the response is closed when, and only
    when, the callback has run to its end after a normal return. *)
Record task_ok (p : Process) (k : nat) (t : task) : Prop := {
  ok_builder : t_builder t = S k;
  ok_res : t_res t = k;
  ok_end : t_end t = (handler (t_body t) (S k)).2;
  ok_done : t_done t = true → t_todo t = [];
  ok_past : ∃ past,
    (handler (t_body t) (S k)).1 = past ++ t_todo t
    ∧ store p !! S k
        = Some (OVoiceResponse (mkVoiceResponse (t_body t) 0 (actions_of past)));
  ok_response :
    responses p !! k
      = Some (if t_done t && returned (t_end t)
              then Express.end_ Express.new_response
              else Express.new_response)
}.

(** What holds of every state the process reaches. *)
Record inv (p : Process) : Prop := {
  inv_bus : voiceEvents p = 0;
  inv_bus_obj : store p !! 0 = Some OVoiceEvents;
  inv_bus_only : ∀ r, store p !! r = Some OVoiceEvents → r = 0;
  inv_len_store : length (store p) = S (length (tasks p));
  inv_len_res : length (responses p) = length (tasks p);
  inv_task : ∀ k t, tasks p !! k = Some t → task_ok p k t
}.

End Dispatcher.

(** The realtime messages among the events of a run. *)
Definition ws_messages (evs : list event) : list string :=
  omap (λ ev, match ev with WsMessage msg => Some msg | _ => None end) evs.

End Voice.

(** ** The event bus and [waitForEvent] *)

Module Events.

Section Bus.
(** The type of broadcast messages. *)
Context {M : Type}.

(** Modelled from the spec: the class [VoiceEvents] is imported from
    [./events], outside the source at hand.  Following section 4.1 the bus is
    its set of listeners, each known by the handle [subscribe] returned. *)
Record bus : Type := mkBus {
  next_handle : nat;
  listeners : list nat
}.

(** Modelled from the spec: [subscribe(listener)] of section 4.1, which
    registers a listener and returns a handle for later unsubscription. *)
Definition subscribe (b : bus) : nat * bus :=
  (next_handle b, mkBus (S (next_handle b)) (listeners b ++ [next_handle b])).

(** Modelled from the spec: [unsubscribe(handle)] of section 4.1, an
    idempotent removal. *)
Definition unsubscribe (h : nat) (b : bus) : bus :=
  mkBus (next_handle b) (filter (λ h', h' ≠ h) (listeners b)).

(** Modelled from the spec: how a call of [waitForEvent] ends (sections 4.3
    and 7), with the message awaited or with the timeout outcome. *)
Inductive outcome : Type :=
| Event (m : M)
| Timeout.

(** Modelled from the spec: a call of [waitForEvent] in progress, with its
    subscription, the time left on its timer in milliseconds, and its
    result once it has resumed (section 4.3). *)
Record wait : Type := mkWait {
  w_handle : nat;
  w_remaining : nat;
  w_result : option outcome
}.

(** Modelled from the spec: what reaches the bus and the timer while a
    call is suspended (section 5), a broadcast message or the passing of one
    millisecond. *)
Inductive occurrence : Type :=
| Bcast (m : M)
| Tick.

(** Modelled from the spec: the timer of [waitForEvent] (sections 4.3 and
    5): once the timeout has elapsed the subscription is removed and the
    caller resumes with the timeout outcome. *)
Definition expire (s : bus * wait) : bus * wait :=
  let '(b, w) := s in
  match w_result w, w_remaining w with
  | None, O => (unsubscribe (w_handle w) b,
                mkWait (w_handle w) O (Some Timeout))
  | _, _ => s
  end.

(** Modelled from the spec: [waitForEvent(predicate, timeout)] of section
    4.3 subscribes to the bus and starts its timer. *)
Definition waitForEvent (t : nat) (b : bus) : bus * wait :=
  let '(h, b') := subscribe b in
  expire (b', mkWait h t None).

(** Modelled from the spec: the listener of [waitForEvent] (section 4.3):
    a broadcast message that satisfies the predicate removes the
    subscription and resumes the caller with that message; the bus calls
    only the listeners still registered (section 4.1). *)
Definition on_message (pred : M → bool) (m : M) (s : bus * wait) : bus * wait :=
  let '(b, w) := s in
  match w_result w with
  | Some _ => s
  | None =>
      if bool_decide (w_handle w ∈ listeners b) && pred m
      then (unsubscribe (w_handle w) b,
            mkWait (w_handle w) (w_remaining w) (Some (Event m)))
      else s
  end.

(** Modelled from the spec: one millisecond passes on the timer of a
    suspended call. *)
Definition on_tick (s : bus * wait) : bus * wait :=
  let '(b, w) := s in
  match w_result w with
  | Some _ => s
  | None => expire (b, mkWait (w_handle w) (w_remaining w - 1) None)
  end.

Definition occur (pred : M → bool) (s : bus * wait) (o : occurrence)
    : bus * wait :=
  match o with
  | Bcast m => on_message pred m s
  | Tick => on_tick s
  end.

Definition unfold_ (pred : M → bool) (os : list occurrence) (s : bus * wait)
    : bus * wait :=
  foldl (occur pred) s os.

(** The milliseconds that pass in a sequence of occurrences, and whether a
    broadcast of the sequence satisfies the predicate. *)
Definition is_tick (o : occurrence) : bool :=
  match o with
  | Tick => true
  | Bcast _ => false
  end.

Definition elapsed (os : list occurrence) : nat :=
  length (filter (λ o, is_tick o) os).

Definition matches (pred : M → bool) (o : occurrence) : bool :=
  match o with
  | Bcast m => pred m
  | Tick => false
  end.

End Bus.

Arguments outcome : clear implicits.
Arguments wait : clear implicits.
Arguments occurrence : clear implicits.

End Events.

(** ** More of the Funcs client: [listFuncs] and the packaging steps *)

Module Paging.
Import Funcs.

(** The caller's request ([../types]); a field the caller leaves out is
    [undefined], here [None]. *)
Record ListFuncsRequest : Type := {
  lf_pageSize : option Z;
  lf_pageToken : option string;
  lf_view : option Z
}.

(** [FuncsPB.ListFuncsRequest], a proto3 message of generated accessors: a
    getter gives what the service receives, which for a field set to
    [undefined] is the default of its type, 0 or the empty string. *)
Record ListFuncsRequestPB : Type := mkListFuncsRequestPB {
  getPageSize : Z;
  getPageToken : string;
  getView : Z
}.

Definition new_ListFuncsRequestPB : ListFuncsRequestPB :=
  mkListFuncsRequestPB 0 "" 0.

Definition setPageSize (v : option Z) (req : ListFuncsRequestPB)
    : ListFuncsRequestPB :=
  mkListFuncsRequestPB (default 0%Z v) (getPageToken req) (getView req).

Definition setPageToken (v : option string) (req : ListFuncsRequestPB)
    : ListFuncsRequestPB :=
  mkListFuncsRequestPB (getPageSize req) (default "" v) (getView req).

Definition setView (v : option Z) (req : ListFuncsRequestPB)
    : ListFuncsRequestPB :=
  mkListFuncsRequestPB (getPageSize req) (getPageToken req) (default 0%Z v).

(** [FuncsPB.ListFuncsResponse], with the two getters the client calls. *)
Record ListFuncsResponsePB : Type := mkListFuncsResponsePB {
  getNextPageToken : string;
  getFuncsList : list Func
}.

(** The value [listFuncs] resolves with: [{nextPageToken, funcs}]. *)
Record ListFuncsResponse : Type := mkListFuncsResponse {
  nextPageToken : string;
  funcs : list JS.object
}.

(** The object literal built for each function of the page, its fields in
    the order of the source. *)
Definition func_entry (f : Func) : JS.object :=
  {[ "name" := VStr (getName f);
     "image" := VStr (getImage f);
     "replicas" := VNum (getReplicas f);
     "invocationCount" := VNum (getInvocationCount f);
     "availableReplicas" := VNum (getAvailableReplicas f) ]}.

(** What reading [getNextPageToken] of a missing page throws, in the
    wording of recent runtimes. *)
Definition TypeError_no_page : Error :=
  mkError "TypeError"
    "Cannot read properties of undefined (reading 'getNextPageToken')".

(** The callback [(e, paginatedList) => { if (e) reject(e); resolve({...}) }].
    As in [getFunc] there is no [return] after [reject(e)], and calling a
    getter of a missing [paginatedList] throws out of the callback. *)
Definition listFuncs_callback (e : option Error)
    (paginatedList : option ListFuncsResponsePB)
    (p : Promise.state ListFuncsResponse)
    : Promise.state ListFuncsResponse * option Error :=
  let p1 := match e with
            | Some err => Promise.reject err p
            | None => p
            end in
  match paginatedList with
  | Some l =>
      (Promise.resolve
         (mkListFuncsResponse (getNextPageToken l) (func_entry <$> getFuncsList l))
         p1,
       None)
  | None => (p1, Some TypeError_no_page)
  end.

(** The request sent to the service. *)
Definition listFuncs_request (request : ListFuncsRequest) : ListFuncsRequestPB :=
  setView (lf_view request)
    (setPageToken (lf_pageToken request)
       (setPageSize (lf_pageSize request) new_ListFuncsRequestPB)).

(** [listFuncs(request)], the service answering a request by calling the
    callback with an error and a page. *)
Definition listFuncs
    (svc_listFuncs : ListFuncsRequestPB → option Error * option ListFuncsResponsePB)
    (request : ListFuncsRequest) : Promise.state ListFuncsResponse :=
  let req := listFuncs_request request in
  let '(e, paginatedList) := svc_listFuncs req in
  fst (listFuncs_callback e paginatedList Pending).

End Paging.

Module Packaging.
Import Funcs.

(** The calls [deployFunc] makes to its helpers before it opens the
    stream. *)
Inductive call : Type :=
| Cleanup (name : string)
| Copy (path name : string)
| Upload (filename bucket : string).

#[global] Instance call_eq_dec : EqDecision call.
Proof. solve_decision. Defined.

(** The packaging steps of [deployFunc] again, with the calls made, in
    order, beside their outcome. *)
Definition package_traced (env : Env) (request : DeployFuncRequest)
    : list call * completion unit :=
  if JS.truthy (dp_pathToFunc request) then
    let name := dp_name request in
    let path := default "" (dp_pathToFunc request) in
    match cleanupTmpDir env name with
    | Throws e => ([Cleanup name], Throws e)
    | Returns _ =>
        match copyFuncAtTmp env path name with
        | Throws e => ([Cleanup name; Copy path name], Throws e)
        | Returns _ =>
            ([Cleanup name; Copy path name;
              Upload ("/tmp/" +:+ name +:+ ".tgz") "funcs"],
             uploadObject env ("/tmp/" +:+ name +:+ ".tgz") "funcs")
        end
    end
  else ([], Returns tt).

(** Whether an event ends the stream. *)
Definition is_terminal (ev : stream_event) : bool :=
  match ev with
  | Data _ => false
  | End_ => true
  | Error_ _ => true
  end.

End Packaging.

(** ** What a run of the voice server leaves behind *)

Module Observe.
Import Voice.

(** The paths of the realtime routes, of the POST routes and of the GET
    routes of [app], in the order of registration. *)
Definition ws_paths (rs : list route) : list value :=
  omap (λ r, match r with WS path => Some path | _ => None end) rs.

Definition post_paths (rs : list route) : list value :=
  omap (λ r, match r with POST path => Some path | _ => None end) rs.

Definition get_paths (rs : list route) : list value :=
  omap (λ r, match r with GET path => Some path | _ => None end) rs.

(** The configured path of a server. *)
Definition path_of (srv : VoiceServer) : value := get "path" (config srv).

(** The servers a sequence of events constructs, in order, after the
    servers [srvs]; and those among them that a call of [listen] of the
    sequence is made on, one for each call, in the order of the calls. *)
Definition effective (cfg : option JS.object) : VoiceServer :=
  mkVoiceServer (merge defaultServerConfig (default defaultServerConfig cfg)).

Fixpoint built (srvs : list VoiceServer) (evs : list event) : list VoiceServer :=
  match evs with
  | [] => srvs
  | NewServer cfg :: evs' => built (srvs ++ [effective cfg]) evs'
  | _ :: evs' => built srvs evs'
  end.

Fixpoint listened (srvs : list VoiceServer) (evs : list event)
    : list VoiceServer :=
  match evs with
  | [] => []
  | NewServer cfg :: evs' => listened (srvs ++ [effective cfg]) evs'
  | Listen srv _ :: evs' =>
      match srvs !! srv with
      | Some this => this :: listened srvs evs'
      | None => listened srvs evs'
      end
  | _ :: evs' => listened srvs evs'
  end.

(** The port [listen] passes on: its argument, unless that is left out or
    [undefined]. *)
Definition port_or (port : option value) (configured : value) : value :=
  match port with
  | Some VUndef | None => configured
  | Some v => v
  end.

(** The POST requests among the events of a run. *)
Definition is_post (ev : event) : bool :=
  match ev with
  | HttpPost _ => true
  | _ => false
  end.

Definition posts (evs : list event) : nat :=
  length (filter (λ ev, is_post ev) evs).

(** The value of a key of the given configuration, or else the default. *)
Definition setting (key : string) (cfg : option JS.object) : value :=
  match cfg ≫= (λ given, given !! key) with
  | Some v => v
  | None => get key defaultServerConfig
  end.

End Observe.

(** ** Scenarios *)

Module Scenario.
Import Voice.

Definition boom : Error := mkError "Error" "boom".

(** A handler that adds an action and then throws. *)
Definition failing_handler (body : JS.object) (response : ref) : script :=
  ([AddAction "play"], Throws boom).

(** A handler that plays the audio named by the request, waits, and hangs
    up. *)
Definition playing_handler (body : JS.object) (response : ref) : script :=
  ([AddAction (match get "audio" body with VStr s => s | _ => "silence" end);
    Await;
    AddAction "hangup"],
   Returns tt).

Definition call_start : JS.object := {[ "event" := VStr "call.start" ]}.

Definition call_a : JS.object := {[ "audio" := VStr "a.wav" ]}.
Definition call_b : JS.object := {[ "audio" := VStr "b.wav" ]}.

(** The messages of the bus in the scenarios of [waitForEvent]. *)
Definition is_digit (m : string) : bool := String.eqb m "digit".

(** A configuration that only sets the port. *)
Definition port_only : JS.object := {[ "port" := VNum 8080 ]}.

(** A service of the Funcs client that answers as given, with helpers that
    succeed. *)
Definition unavailable : Error := mkError "Error" "14 UNAVAILABLE".

Definition hello : Funcs.Func :=
  Funcs.mkFunc "hello" "docker.io/functions/hello" 7 2 1.

Definition service (got : option Error * option Funcs.Func)
    (deleted : option Error * JS.object)
    (stream : list Funcs.stream_event) : Funcs.Env :=
  {| Funcs.svc_getFunc := λ _, got;
     Funcs.svc_deleteFunc := λ _, deleted;
     Funcs.svc_deployFunc := λ _, stream;
     Funcs.buildDeployFuncRequest :=
       λ r, {| Funcs.dpb_name := Funcs.dp_name r;
               Funcs.dpb_baseImage := Funcs.dp_baseImage r |};
     Funcs.cleanupTmpDir := λ _, Returns tt;
     Funcs.copyFuncAtTmp := λ _ _, Returns tt;
     Funcs.uploadObject := λ _ _, Returns tt |}.

(** An emitter that records the messages it is called with. *)
Definition recorder (m : Funcs.message) (seen : list Funcs.message)
    : list Funcs.message :=
  seen ++ [m].

Definition deploy_hello : Funcs.DeployFuncRequest :=
  {| Funcs.dp_name := "hello";
     Funcs.dp_baseImage := "docker.io/functions/hello";
     Funcs.dp_pathToFunc := Some "./hello" |}.

End Scenario.

(** ** Further scenarios *)

Module Cases.
Import Funcs.

(** A deployment from the base image alone: the path is the empty
    string. *)
Definition deploy_image_only : DeployFuncRequest :=
  {| dp_name := "hello";
     dp_baseImage := "docker.io/functions/hello";
     dp_pathToFunc := Some "" |}.

(** A client whose copy step fails. *)
Definition disk_full : Error := mkError "Error" "ENOSPC: no space left on device".

Definition failing_copy (stream : list stream_event) : Env :=
  {| svc_getFunc := λ _, (None, None);
     svc_deleteFunc := λ _, (None, ∅);
     svc_deployFunc := λ _, stream;
     buildDeployFuncRequest :=
       λ r, {| dpb_name := dp_name r; dpb_baseImage := dp_baseImage r |};
     cleanupTmpDir := λ _, Returns tt;
     copyFuncAtTmp := λ _ _, Throws disk_full;
     uploadObject := λ _ _, Returns tt |}.




End Cases.

(** * Properties *)

(** ** Promises settle once *)

Section PromiseFacts.
Context {A : Type}.
Implicit Types (p : Promise.state A) (a : A) (e : Error).

Lemma resolve_settled a p : Promise.settled p = true → Promise.resolve a p = p.
Proof. by destruct p. Qed.

Lemma reject_settled e p : Promise.settled p = true → Promise.reject e p = p.
Proof. by destruct p. Qed.

Lemma settled_resolve a p : Promise.settled (Promise.resolve a p) = true.
Proof. by destruct p. Qed.

Lemma settled_reject e p : Promise.settled (Promise.reject e p) = true.
Proof. by destruct p. Qed.

(** A rejection followed by a resolution is the rejection. *)
Lemma resolve_reject a e : Promise.resolve a (Promise.reject e Pending) = Rejected e.
Proof. reflexivity. Qed.

End PromiseFacts.

(** ** The Funcs client *)

Section FuncsFacts.
Import Funcs.

(** *** The deployment stream *)

Context {S : Type}.
Implicit Types (emitter : option (message → S → S)) (st : deploy_state S).
Implicit Types (evs : list stream_event) (ms : list message).

Lemma dispatch_settled emitter st ev :
  Promise.settled (promise st) = true →
  promise (dispatch emitter st ev) = promise st.
Proof.
  intros Hs. destruct ev as [m| |e]; simpl.
  - unfold on_data. by destruct emitter.
  - by apply resolve_settled.
  - by apply reject_settled.
Qed.

Lemma run_stream_cons emitter ev evs st :
  run_stream emitter (ev :: evs) st = run_stream emitter evs (dispatch emitter st ev).
Proof. reflexivity. Qed.

Lemma run_stream_settled emitter evs st :
  Promise.settled (promise st) = true →
  promise (run_stream emitter evs st) = promise st.
Proof.
  revert st. induction evs as [|ev evs IH]; intros st Hs; [done|].
  rewrite run_stream_cons, IH.
  - by apply dispatch_settled.
  - by rewrite dispatch_settled.
Qed.

(** The promise is decided by the first terminal event of the stream. *)
Lemma run_stream_promise emitter evs s :
  promise (run_stream emitter evs (mkDeploy Pending s)) = first_terminal evs.
Proof.
  revert s. induction evs as [|ev evs IH]; intros s; [done|].
  rewrite run_stream_cons. destruct ev as [m| |e]; simpl.
  - unfold on_data. destruct emitter; apply IH.
  - by rewrite run_stream_settled.
  - by rewrite run_stream_settled.
Qed.

(** The caller's state only depends on the messages, all of which are
    forwarded, in the order of the stream. *)
Lemma run_stream_sink emitter evs st :
  sink (run_stream emitter evs st) = forwarded emitter (data_of evs) (sink st).
Proof.
  revert st. induction evs as [|ev evs IH]; intros st.
  - by destruct emitter.
  - rewrite run_stream_cons, IH.
    destruct ev as [m| |e]; simpl; [|done..].
    unfold on_data, forwarded. by destruct emitter.
Qed.

Lemma first_terminal_end ms evs :
  first_terminal ((Data <$> ms) ++ End_ :: evs) = Fulfilled tt.
Proof. by induction ms. Qed.

Lemma first_terminal_error ms e evs :
  first_terminal ((Data <$> ms) ++ Error_ e :: evs) = Rejected e.
Proof. by induction ms. Qed.

Lemma data_of_app evs1 evs2 : data_of (evs1 ++ evs2) = data_of evs1 ++ data_of evs2.
Proof. unfold data_of. apply omap_app. Qed.

Lemma data_of_data ms : data_of (Data <$> ms) = ms.
Proof. induction ms as [|m ms IH]; [done|]. unfold data_of in *. simpl. by f_equal. Qed.

Lemma data_of_terminated ms ev :
  (if ev is Data _ then False else True) → data_of ((Data <$> ms) ++ [ev]) = ms.
Proof.
  intros Hev. rewrite data_of_app, data_of_data.
  destruct ev; [done|..]; apply app_nil_r.
Qed.

(** C8. For every call of [deployFunc(request, emitter)]: every message
    the RPC stream emits is forwarded to the emitter when one is given, in
    order, and nothing is forwarded when it is omitted; the promise is
    settled once, by the first terminal event of the stream: it is
    fulfilled when the stream ends and rejected with the stream's error
    when the stream fails, whatever the stream emits afterwards.  (A call
    whose packaging steps fail opens no stream; its promise is rejected
    with that failure.) *)
Theorem deployFunc_forwards_and_settles (env : Env) (request : DeployFuncRequest)
    emitter (s : S) :
  let stream := svc_deployFunc env (buildDeployFuncRequest env request) in
  match package env request with
  | Throws e => deployFunc env request emitter s = mkDeploy (Rejected e) s
  | Returns _ =>
      sink (deployFunc env request emitter s)
        = forwarded emitter (data_of stream) s
      ∧ forwarded None (data_of stream) s = s
      ∧ promise (deployFunc env request emitter s) = first_terminal stream
      ∧ (∀ ms, stream = (Data <$> ms) ++ [End_] →
           deployFunc env request emitter s
             = mkDeploy (Fulfilled tt) (forwarded emitter ms s))
      ∧ (∀ ms e, stream = (Data <$> ms) ++ [Error_ e] →
           deployFunc env request emitter s
             = mkDeploy (Rejected e) (forwarded emitter ms s))
  end.
Proof.
  intros stream. unfold deployFunc.
  destruct (package env request) as [[]|e]; [|done].
  fold stream.
  pose proof (run_stream_sink emitter stream (mkDeploy Pending s)) as Hsink.
  pose proof (run_stream_promise emitter stream s) as Hprom.
  destruct (run_stream emitter stream (mkDeploy Pending s)) as [p s'].
  simpl in *. subst p s'.
  repeat split; [| ].
  - intros ms Hst. rewrite Hst, first_terminal_end, data_of_terminated; done.
  - intros ms e Hst. rewrite Hst, first_terminal_error, data_of_terminated; done.
Qed.

End FuncsFacts.

Section UnaryCalls.
Import Funcs.
Implicit Types (env : Env) (f : Func) (e : Error).

(** The five fields of the object [getFunc] resolves with. *)
Lemma func_fields_dom f :
  dom (func_fields f)
    = ({[ "name"; "image"; "invocationCount"; "replicas";
          "availableReplicas" ]} : gset string).
Proof.
  unfold func_fields.
  rewrite !dom_insert_L, ?dom_singleton_L, ?dom_empty_L. set_solver.
Qed.

Lemma func_fields_lookup f :
  func_fields f !! "name" = Some (VStr (getName f))
  ∧ func_fields f !! "image" = Some (VStr (getImage f))
  ∧ func_fields f !! "invocationCount" = Some (VNum (getInvocationCount f))
  ∧ func_fields f !! "replicas" = Some (VNum (getReplicas f))
  ∧ func_fields f !! "availableReplicas" = Some (VNum (getAvailableReplicas f)).
Proof. unfold func_fields. repeat split; by simplify_map_eq. Qed.

(** The callback of [getFunc] called with an error: the promise is
    rejected with it, whatever response comes along. *)
Lemma getFunc_callback_error e (res : option Func) :
  fst (getFunc_callback (Some e) res Pending) = Rejected e.
Proof. by destruct res. Qed.

(** C9. For every call of [getFunc(request)]: when the RPC callback is
    given an error, the promise is rejected with that error (and so never
    resolves with function data); when it is given no error and a response,
    the promise resolves with an object of exactly the five fields name,
    image, invocationCount, replicas and availableReplicas, each read from
    that response. *)
Theorem getFunc_rejects_or_resolves env (request : GetFuncRequest) :
  match svc_getFunc env (setName (gf_name request) new_NameRequestPB) with
  | (Some e, _) => getFunc env request = Rejected e
  | (None, Some f) =>
      getFunc env request = Fulfilled (func_fields f)
      ∧ dom (func_fields f)
          = ({[ "name"; "image"; "invocationCount"; "replicas";
                "availableReplicas" ]} : gset string)
      ∧ func_fields f !! "name" = Some (VStr (getName f))
      ∧ func_fields f !! "image" = Some (VStr (getImage f))
      ∧ func_fields f !! "invocationCount" = Some (VNum (getInvocationCount f))
      ∧ func_fields f !! "replicas" = Some (VNum (getReplicas f))
      ∧ func_fields f !! "availableReplicas"
          = Some (VNum (getAvailableReplicas f))
  | (None, None) => getFunc env request = Pending
  end.
Proof.
  unfold getFunc.
  destruct (svc_getFunc env _) as [[e|] [f|]]; simpl; [done..| |done].
  split; [done|]. split; [apply func_fields_dom | apply func_fields_lookup].
Qed.

(** C10. For every call of [deleteFunc(request)] whose RPC callback
    reports success, the promise resolves with the object whose only field
    is [name], holding the name of the caller's request; the response of
    the service plays no part in it. *)
Theorem deleteFunc_echoes_request_name env (request : DeleteFuncRequest) :
  match svc_deleteFunc env (setName (df_name request) new_NameRequestPB) with
  | (None, _) =>
      deleteFunc env request = Fulfilled {[ "name" := VStr (df_name request) ]}
  | (Some e, _) => deleteFunc env request = Rejected e
  end.
Proof.
  unfold deleteFunc. by destruct (svc_deleteFunc env _) as [[e|] r].
Qed.

End UnaryCalls.

(** *** Scenarios of the client *)

Section FuncsScenarios.
Import Funcs Scenario.

Example getFunc_found :
  getFunc (service (None, Some hello) (None, ∅) []) {| gf_name := "hello" |}
    = Fulfilled (func_fields hello).
Proof. reflexivity. Qed.

Example getFunc_unavailable :
  getFunc (service (Some unavailable, None) (None, ∅) []) {| gf_name := "hello" |}
    = Rejected unavailable
  ∧ snd (getFunc_callback (Some unavailable) None Pending)
      = Some TypeError_undefined.
Proof. by split. Qed.

Example deleteFunc_done :
  deleteFunc (service (None, None) (None, {[ "name" := VStr "other" ]}) [])
    {| df_name := "hello" |}
    = Fulfilled {[ "name" := VStr "hello" ]}.
Proof. reflexivity. Qed.

Example deployFunc_progress :
  deployFunc (service (None, None) (None, ∅) [Data "build"; Data "push"; End_])
    deploy_hello (Some recorder) []
    = mkDeploy (Fulfilled tt) ["build"; "push"]
  ∧ deployFunc (S := list message)
      (service (None, None) (None, ∅) [Data "build"; Data "push"; End_])
      deploy_hello None []
    = mkDeploy (Fulfilled tt) [].
Proof. by split. Qed.

Example deployFunc_failure :
  deployFunc (service (None, None) (None, ∅)
                [Data "build"; Error_ unavailable; End_; Data "late"])
    deploy_hello (Some recorder) []
    = mkDeploy (Rejected unavailable) ["build"; "late"].
Proof. reflexivity. Qed.

End FuncsScenarios.

(** ** The configuration of the voice server *)

Section ConfigFacts.
Import Voice.
Implicit Types (target source given : JS.object) (key : string).

(** Every key written by [assign] reads back; the others are left as they
    were. *)
Lemma assign_lookup source (dest : JS.object) key :
  assign source dest !! key
    = match source !! key with
      | Some v => Some v
      | None => dest !! key
      end.
Proof.
  unfold assign.
  apply (map_fold_weak_ind
    (λ (r : JS.object) (m : JS.object),
       r !! key = match m !! key with Some v => Some v | None => dest !! key end)).
  - by rewrite lookup_empty.
  - intros i x m r Hi IH.
    destruct (decide (i = key)) as [->|Hne].
    + by rewrite !lookup_insert_eq.
    + by rewrite !lookup_insert_ne.
Qed.

(** The source wins over the target, key by key. *)
Lemma merge_lookup target source key :
  merge target source !! key
    = match source !! key with
      | Some v => Some v
      | None => target !! key
      end.
Proof.
  unfold merge. rewrite !assign_lookup, lookup_empty.
  by destruct (source !! key), (target !! key).
Qed.

Lemma merge_idemp target : merge target target = target.
Proof.
  apply map_eq. intros key. rewrite merge_lookup.
  by destruct (target !! key).
Qed.

Lemma constructor_servers (cfg : option JS.object) (p : Process) :
  servers (constructor cfg p)
    = servers p ++ [mkVoiceServer (merge defaultServerConfig
                                     (default defaultServerConfig cfg))].
Proof. reflexivity. Qed.

(** C6. For every configuration passed to the constructor of
    [VoiceServer], the effective configuration is the given one merged over
    the defaults: a field the caller specifies keeps the caller's value, a
    field left out falls back to its default (path "/", port 3000, bind
    "0.0.0.0"); with no configuration given it is the defaults exactly. *)
Theorem constructor_merges_config_over_defaults (cfg : option JS.object)
    (p : Process) :
  ∃ this : VoiceServer,
    servers (constructor cfg p) = servers p ++ [this]
    ∧ match cfg with
      | Some given =>
          ∀ key, config this !! key
                   = match given !! key with
                     | Some v => Some v
                     | None => defaultServerConfig !! key
                     end
      | None => config this = defaultServerConfig
      end
    ∧ defaultServerConfig !! "path" = Some (VStr "/")
    ∧ defaultServerConfig !! "port" = Some (VNum 3000)
    ∧ defaultServerConfig !! "bind" = Some (VStr "0.0.0.0")
    ∧ dom defaultServerConfig = ({[ "path"; "port"; "bind" ]} : gset string).
Proof.
  eexists. split; [apply constructor_servers|]. simpl.
  split; [|by repeat split].
  destruct cfg as [given|]; simpl.
  - intros key. apply merge_lookup.
  - apply merge_idemp.
Qed.

Example merge_port_only :
  merge defaultServerConfig Scenario.port_only
    = {[ "path" := VStr "/"; "port" := VNum 8080; "bind" := VStr "0.0.0.0" ]}.
Proof. vm_compute. reflexivity. Qed.

End ConfigFacts.

(** ** The static asset responder *)

Section TtsFacts.
Import Voice Cases.



End TtsFacts.

(** ** The webhook dispatcher and the realtime relay *)

Section DispatcherFacts.
Import Voice.
Variable handler : JS.object → ref → script.
Implicit Types (p : Process) (t : task) (ev : event) (evs : list event).
Local Abbreviation inv := (Voice.inv handler).
Local Abbreviation task_ok := (Voice.task_ok handler).

(** *** The event bus is never replaced *)

Lemma step_voiceEvents p ev : voiceEvents (step handler p ev) = voiceEvents p.
Proof.
  destruct ev as [cfg|srv port|body|msg|k]; simpl; try done.
  - by destruct (servers p !! srv).
  - unfold http_post, post_callback. simpl. by destruct (handler body _).
  - unfold resume. destruct (tasks p !! k) as [t|]; [|done].
    destruct (t_done t); [done|].
    destruct (t_todo t); [|done].
    unfold finish. by destruct (t_end t).
Qed.

Lemma run_snoc evs ev p :
  run handler (evs ++ [ev]) p = step handler (run handler evs p) ev.
Proof. unfold run. by rewrite foldl_app. Qed.

Lemma run_app evs1 evs2 p :
  run handler (evs1 ++ evs2) p = run handler evs2 (run handler evs1 p).
Proof. unfold run. by rewrite foldl_app. Qed.

Lemma run_voiceEvents evs p : voiceEvents (run handler evs p) = voiceEvents p.
Proof.
  induction evs as [|ev evs IH] using rev_ind; [done|].
  by rewrite run_snoc, step_voiceEvents.
Qed.

(** *** One broadcast per realtime message *)

Lemma broadcasts_app (l1 l2 : list effect) :
  broadcasts (l1 ++ l2) = broadcasts l1 ++ broadcasts l2.
Proof. apply omap_app. Qed.

Lemma step_broadcasts p ev :
  broadcasts (log (step handler p ev))
    = broadcasts (log p)
      ++ match ev with
         | WsMessage msg => [(voiceEvents p, msg)]
         | _ => []
         end.
Proof.
  destruct ev as [cfg|srv port|body|msg|k]; simpl.
  - by rewrite broadcasts_app.
  - destruct (servers p !! srv); simpl; [|by rewrite app_nil_r].
    by rewrite broadcasts_app.
  - unfold http_post, post_callback. simpl.
    destruct (handler body _). simpl. by rewrite app_nil_r.
  - by rewrite broadcasts_app.
  - rewrite app_nil_r. unfold resume.
    destruct (tasks p !! k) as [t|]; [|done].
    destruct (t_done t); [done|].
    destruct (t_todo t); [|done].
    unfold finish. destruct (t_end t); simpl; [done|].
    by rewrite broadcasts_app, app_nil_r.
Qed.

Lemma ws_messages_snoc evs ev :
  ws_messages (evs ++ [ev])
    = ws_messages evs ++ match ev with WsMessage msg => [msg] | _ => [] end.
Proof. unfold ws_messages. rewrite omap_app. by destruct ev. Qed.

Lemma run_broadcasts evs p :
  broadcasts (log (run handler evs p))
    = broadcasts (log p) ++ ((λ msg, (voiceEvents p, msg)) <$> ws_messages evs).
Proof.
  induction evs as [|ev evs IH] using rev_ind.
  - simpl. by rewrite app_nil_r.
  - rewrite run_snoc, step_broadcasts, IH, run_voiceEvents, ws_messages_snoc.
    rewrite fmap_app, <- app_assoc. by destruct ev.
Qed.

(** C5. For every message received on a realtime connection, the relay
    calls [broadcast] of the event bus once, with that payload as it came:
    the broadcasts of a run are the realtime messages of the run, one each,
    in order and unchanged, all on the bus of the module; and the callback
    does nothing else: it sends nothing, and leaves the store, the
    servers, the routes, the responses and the running handlers as they
    were. *)
Theorem relay_forwards_each_message_once (msg : string) evs p :
  ws_callback msg p
    = mkProcess (store p) (voiceEvents p) (servers p) (routes p) (responses p)
        (tasks p) (log p ++ [Broadcast (voiceEvents p) msg])
  ∧ broadcasts (log (ws_callback msg p))
      = broadcasts (log p) ++ [(voiceEvents p, msg)]
  ∧ broadcasts (log (run handler evs load))
      = (λ m, (voiceEvents load, m)) <$> ws_messages evs.
Proof.
  split; [done|]. split.
  - apply (step_broadcasts p (WsMessage msg)).
  - by rewrite run_broadcasts.
Qed.

(** *** What holds of every state the process reaches *)

Lemma inv_load : inv load.
Proof. split; try done. by intros [|r] Hr. Qed.

Lemma inv_constructor cfg p : inv p → inv (constructor cfg p).
Proof.
  intros [H1 H2 H3 H4 H5 H6]. split; try done.
  intros k t Hk. destruct (H6 k t Hk). by split.
Qed.

Lemma inv_listen this port p : inv p → inv (listen this port p).
Proof.
  intros [H1 H2 H3 H4 H5 H6]. split; try done.
  intros k t Hk. destruct (H6 k t Hk). by split.
Qed.

Lemma inv_ws msg p : inv p → inv (ws_callback msg p).
Proof.
  intros [H1 H2 H3 H4 H5 H6]. split; try done.
  intros k t Hk. destruct (H6 k t Hk). by split.
Qed.

Lemma inv_http_post body p : inv p → inv (http_post handler body p).
Proof.
  intros [H1 H2 H3 H4 H5 H6].
  unfold http_post, post_callback, alloc. simpl.
  destruct (handler body (length (store p))) as [todo fin] eqn:Hh.
  split; simpl.
  - done.
  - rewrite lookup_app_l; [done|]. rewrite H4. lia.
  - intros r Hr. apply lookup_app_Some in Hr as [Hr|[_ Hr]]; [by apply H3|].
    by destruct (r - length (store p)).
  - rewrite !length_app, H4. simpl. lia.
  - rewrite !length_app, H5. done.
  - intros k t Hk.
    apply lookup_app_Some in Hk as [Hk|[Hge Hk]].
    + destruct (H6 k t Hk) as [Ha Hb Hc Hd [past [He Hf]] Hg].
      pose proof (lookup_lt_Some _ _ _ Hk) as Hlt.
      split; simpl; [done..| |].
      * exists past. split; [done|].
        rewrite lookup_app_l; [done|]. rewrite H4. lia.
      * rewrite lookup_app_l; [done|]. rewrite H5. lia.
    + destruct (k - length (tasks p)) as [|n] eqn:Hn; [|done].
      assert (k = length (tasks p)) as -> by lia.
      simpl in Hk. injection Hk as <-.
      rewrite H4 in Hh.
      split; simpl.
      * by rewrite H4.
      * done.
      * by rewrite Hh.
      * done.
      * exists []. rewrite Hh. split; [done|].
        rewrite lookup_app_r; [|rewrite H4; lia].
        rewrite H4, Nat.sub_diag, H1. done.
      * rewrite lookup_app_r; [|rewrite H5; lia].
        by rewrite H5, Nat.sub_diag.
Qed.

Lemma actions_of_snoc (cs : list cmd) (c : cmd) :
  actions_of (cs ++ [c])
    = actions_of cs ++ match c with AddAction a => [a] | Await => [] end.
Proof. unfold actions_of. rewrite omap_app. by destruct c. Qed.

(** A command of the [k]-th handler changes the [k]-th builder only. *)
Lemma exec_lookup_ne (c : cmd) (r r' : ref) (st : list obj) :
  r ≠ r' → exec c r st !! r' = st !! r'.
Proof.
  intros Hne. destruct c as [a|]; simpl; [|done].
  destruct (st !! r) as [[|b]|]; [done| |done].
  by rewrite list_lookup_insert_ne.
Qed.

Lemma exec_length (c : cmd) (r : ref) (st : list obj) :
  length (exec c r st) = length st.
Proof.
  destruct c as [a|]; simpl; [|done].
  destruct (st !! r) as [[|b]|]; [done| |done].
  by rewrite length_insert.
Qed.

Lemma exec_lookup_eq (c : cmd) (r : ref) (st : list obj) body bus acts :
  st !! r = Some (OVoiceResponse (mkVoiceResponse body bus acts)) →
  exec c r st !! r
    = Some (OVoiceResponse
              (mkVoiceResponse body bus
                 (acts ++ match c with AddAction a => [a] | Await => [] end))).
Proof.
  intros Hr. destruct c as [a|]; simpl.
  - rewrite Hr. rewrite list_lookup_insert_eq; [done|].
    by apply lookup_lt_Some in Hr.
  - by rewrite app_nil_r.
Qed.

Lemma inv_resume k p : inv p → inv (resume k p).
Proof.
  intros [H1 H2 H3 H4 H5 H6]. unfold resume.
  destruct (tasks p !! k) as [t|] eqn:Hk; [|by split].
  destruct (H6 k t Hk) as [Ha Hb Hc Hd [past [He Hf]] Hg].
  destruct (t_done t) eqn:Hdone; [by split|].
  pose proof (lookup_lt_Some _ _ _ Hk) as Hlt.
  destruct (t_todo t) as [|c todo] eqn:Htodo; rewrite ?Htodo in He.
  - (* the handler is over: the end of the callback *)
    assert (∀ rs lg, 
      (∀ k', k' ≠ k → rs !! k' = responses p !! k') →
      length rs = length (responses p) →
      rs !! k = Some (if returned (t_end t)
                      then Express.end_ Express.new_response
                      else Express.new_response) →
      inv (mkProcess (store p) (voiceEvents p) (servers p) (routes p) rs
             (<[k := mkTask (t_body t) (t_builder t) (t_res t) [] (t_end t)
                       true]> (tasks p)) lg)) as Hfin.
    { intros rs lg Hother Hlen Hat. split; simpl; try done.
      - by rewrite length_insert.
      - by rewrite length_insert, Hlen.
      - intros k' t' Hk'.
        destruct (decide (k = k')) as [<-|Hne].
        + rewrite list_lookup_insert_eq in Hk' by done. injection Hk' as <-.
          split; simpl; try done.
          by exists past.
        + rewrite list_lookup_insert_ne in Hk' by done.
          destruct (H6 k' t' Hk') as [Ha' Hb' Hc' Hd' He' Hg'].
          split; simpl; try done.
          by rewrite Hother. }
    unfold finish. destruct (t_end t) as [[]|e] eqn:Hend; simpl; apply Hfin.
    + intros k' Hne. rewrite Hb. by rewrite list_lookup_alter_ne.
    + by rewrite length_alter.
    + by rewrite Hb, list_lookup_alter_eq, Hg.
    + done.
    + done.
    + by rewrite Hg.
  - (* one more command of the handler *)
    rewrite Ha.
    split; simpl.
    + done.
    + by rewrite exec_lookup_ne.
    + intros r Hr. destruct (decide (S k = r)) as [<-|Hne].
      * rewrite (exec_lookup_eq _ _ _ _ _ _ Hf) in Hr. done.
      * rewrite exec_lookup_ne in Hr by done. by apply H3.
    + by rewrite exec_length, length_insert.
    + by rewrite length_insert.
    + intros k' t' Hk'.
      destruct (decide (k = k')) as [<-|Hne].
      * rewrite list_lookup_insert_eq in Hk' by done. injection Hk' as <-.
        split; simpl; try done.
        exists (past ++ [c]). rewrite <- app_assoc. simpl.
        split; [by rewrite He|].
        rewrite actions_of_snoc. by apply exec_lookup_eq.
      * rewrite list_lookup_insert_ne in Hk' by done.
        destruct (H6 k' t' Hk') as [Ha' Hb' Hc' Hd' [past' [He' Hf']] Hg'].
        split; simpl; try done.
        exists past'. split; [done|].
        rewrite exec_lookup_ne; [done|lia].
Qed.

Lemma inv_step p ev : inv p → inv (step handler p ev).
Proof.
  intros Hp. destruct ev as [cfg|srv port|body|msg|k]; simpl.
  - by apply inv_constructor.
  - destruct (servers p !! srv); [by apply inv_listen|done].
  - by apply inv_http_post.
  - by apply inv_ws.
  - by apply inv_resume.
Qed.

Lemma inv_run evs : inv (run handler evs load).
Proof.
  induction evs as [|ev evs IH] using rev_ind; [apply inv_load|].
  rewrite run_snoc. by apply inv_step.
Qed.

(** *** Every callback runs to its end *)

Lemma resume_completes (k : nat) (n : nat) : ∀ p t,
  tasks p !! k = Some t → length (t_todo t) = n →
  ∃ t', tasks (run handler (replicate (S n) (Resume k)) p) !! k = Some t'
        ∧ t_done t' = true ∧ t_end t' = t_end t ∧ t_res t' = t_res t
        ∧ t_body t' = t_body t ∧ t_builder t' = t_builder t.
Proof.
  assert (∀ m p t, tasks p !! k = Some t → t_done t = true →
    tasks (run handler (replicate m (Resume k)) p) !! k = Some t) as Hstay.
  { induction m as [|m IH]; intros p t Hk Hd; [done|].
    simpl. unfold resume. rewrite Hk, Hd. by apply IH. }
  induction n as [|n IH]; intros p t Hk Hn.
  - destruct (t_done t) eqn:Hd.
    + exists t. by rewrite (Hstay _ _ _ Hk Hd).
    + apply length_zero_iff_nil in Hn.
      pose proof (lookup_lt_Some _ _ _ Hk) as Hlt.
      assert (tasks (finish t p) = tasks p) as Hft
        by (unfold finish; by destruct (t_end t)).
      eexists. simpl. unfold resume at 1. rewrite Hk, Hd, Hn. simpl.
      rewrite Hft. split; [by apply list_lookup_insert_eq|]. done.
  - destruct (t_done t) eqn:Hd.
    + exists t. by rewrite (Hstay _ _ _ Hk Hd).
    + destruct (t_todo t) as [|c todo] eqn:Htodo; [done|].
      pose proof (lookup_lt_Some _ _ _ Hk) as Hlt.
      change (replicate (S (S n)) (Resume k))
        with (Resume k :: replicate (S n) (Resume k)).
      change (run handler (Resume k :: replicate (S n) (Resume k)) p)
        with (run handler (replicate (S n) (Resume k)) (resume k p)).
      unfold resume at 1. rewrite Hk, Hd, Htodo.
      edestruct (IH (mkProcess (exec c (t_builder t) (store p)) (voiceEvents p)
                       (servers p) (routes p) (responses p)
                       (<[k := mkTask (t_body t) (t_builder t) (t_res t) todo
                                 (t_end t) false]> (tasks p)) (log p)))
        as [t' [Ht' Hrest]].
      * simpl. by apply list_lookup_insert_eq.
      * simpl in *. lia.
      * exists t'. split; [exact Ht'|]. exact Hrest.
Qed.

(** C1, amended. For every inbound POST request: the callback reaches its
    end once the scheduler has run it through what is left of the handler;
    the dispatcher never closes the response while the handler is running;
    once the handler has completed by normal return, the response has been
    closed exactly once; when the handler throws, the failure is not caught
    and the dispatcher does not close the response. *)
Theorem dispatcher_closes_response_on_return evs (k : nat) t :
  tasks (run handler evs load) !! k = Some t →
  t_end t = (handler (t_body t) (t_builder t)).2
  ∧ (∃ res, responses (run handler evs load) !! t_res t = Some res
            ∧ Express.endCalls res
                = (if t_done t && returned (t_end t) then 1 else 0)
            ∧ Express.finished res = t_done t && returned (t_end t))
  ∧ (∃ t', tasks (run handler (evs ++ replicate (S (length (t_todo t))) (Resume k))
                    load) !! k = Some t'
           ∧ t_done t' = true ∧ t_end t' = t_end t ∧ t_res t' = t_res t).
Proof.
  intros Hk.
  destruct (inv_task _ _ (inv_run evs) k t Hk) as [Ha Hb Hc Hd _ Hg].
  split; [by rewrite Ha|]. split.
  - rewrite Hb, Hg. eexists. split; [done|].
    by destruct (t_done t && returned (t_end t)).
  - rewrite run_app.
    destruct (resume_completes k _ _ t Hk eq_refl) as [t' (?&?&?&?&_)].
    by exists t'.
Qed.

(** C2. For every inbound POST request the dispatcher constructs a new
    builder, bound to the event bus and with no action, before it invokes
    the handler; the builders of two distinct requests are distinct
    objects; and at every moment the actions of the builder of a request
    are those its own handler has added so far, in order: no action of
    another handler appears among them. *)
Theorem dispatcher_builders_are_fresh_and_separate evs (body : JS.object) :
  let p := run handler evs load in
  (∃ t, tasks (http_post handler body p) = tasks p ++ [t]
        ∧ store p !! t_builder t = None
        ∧ store (http_post handler body p) !! t_builder t
            = Some (OVoiceResponse (mkVoiceResponse body (voiceEvents p) []))
        ∧ (t_todo t, t_end t) = handler body (t_builder t)
        ∧ t_done t = false)
  ∧ (∀ i j ti tj, tasks p !! i = Some ti → tasks p !! j = Some tj →
       i ≠ j → t_builder ti ≠ t_builder tj)
  ∧ (∀ i ti, tasks p !! i = Some ti →
       ∃ past, (handler (t_body ti) (t_builder ti)).1 = past ++ t_todo ti
               ∧ store p !! t_builder ti
                   = Some (OVoiceResponse
                             (mkVoiceResponse (t_body ti) (voiceEvents p)
                                (actions_of past)))).
Proof.
  intros p. pose proof (inv_run evs) as Hinv. fold p in Hinv.
  split; [|split].
  - unfold http_post, post_callback, alloc. simpl.
    destruct (handler body (length (store p))) as [todo fin] eqn:Hh. simpl.
    eexists. split; [done|]. simpl.
    split; [by apply lookup_ge_None|].
    split; [|by rewrite Hh].
    rewrite lookup_app_r by done. by rewrite Nat.sub_diag.
  - intros i j ti tj Hi Hj Hne.
    rewrite (ok_builder _ _ _ _ (inv_task _ _ Hinv i ti Hi)).
    rewrite (ok_builder _ _ _ _ (inv_task _ _ Hinv j tj Hj)). lia.
  - intros i ti Hi.
    destruct (inv_task _ _ Hinv i ti Hi) as [Ha _ _ _ [past [He Hf]] _].
    exists past. by rewrite Ha, (inv_bus _ _ Hinv).
Qed.

(** C3, amended. The event bus is a singleton of the process, created
    once when the module is loaded, before any server is constructed; the
    constructor of [VoiceServer] creates no object.  In every state the
    process reaches, it is the only event bus, every builder the
    dispatcher has constructed is bound to it, and every message the relay
    has forwarded was broadcast on it. *)
Theorem event_bus_is_a_module_singleton evs :
  let p := run handler evs load in
  store load = [OVoiceEvents]
  ∧ voiceEvents p = voiceEvents load
  ∧ store p !! voiceEvents p = Some OVoiceEvents
  ∧ (∀ r, store p !! r = Some OVoiceEvents → r = voiceEvents p)
  ∧ (∀ r b, store p !! r = Some (OVoiceResponse b) → vr_events b = voiceEvents p)
  ∧ (∀ bus msg, (bus, msg) ∈ broadcasts (log p) → bus = voiceEvents p)
  ∧ (∀ cfg, store (constructor cfg p) = store p
            ∧ voiceEvents (constructor cfg p) = voiceEvents p).
Proof.
  intros p. pose proof (inv_run evs) as Hinv. fold p in Hinv.
  destruct Hinv as [H1 H2 H3 H4 H5 H6].
  split; [done|]. split; [by rewrite H1|]. split; [by rewrite H1|].
  split; [by rewrite H1|]. split; [|split; [|done]].
  - intros r b Hr. rewrite H1.
    destruct r as [|k]; [by rewrite H2 in Hr|].
    pose proof (lookup_lt_Some _ _ _ Hr) as Hlt. rewrite H4 in Hlt.
    destruct (lookup_lt_is_Some_2 (tasks p) k) as [t Ht]; [lia|].
    destruct (H6 k t Ht) as [_ _ _ _ [past [_ Hf]] _].
    rewrite Hf in Hr. by injection Hr as <-.
  - intros bus msg Hin. unfold p in Hin. rewrite run_broadcasts in Hin.
    simpl in Hin. apply list_elem_of_fmap in Hin as [m [Heq _]].
    injection Heq as -> _. by rewrite H1.
Qed.

End DispatcherFacts.

(** *** Scenarios of the dispatcher *)

Section DispatcherScenarios.
Import Voice Scenario.

(** C1, as stated, fails: when the handler throws, the callback runs to
    its end and the response is as Express created it, not closed. *)
Lemma failing_handler_leaves_response_open :
  let p := run failing_handler [HttpPost call_start; Resume 0; Resume 0] load in
  ∃ t res, tasks p !! 0 = Some t
           ∧ t_done t = true
           ∧ t_end t = Throws boom
           ∧ responses p !! t_res t = Some res
           ∧ Express.finished res = false
           ∧ Express.endCalls res = 0
           ∧ log p = [UnhandledRejection boom].
Proof.
  eexists _, _. split; [vm_compute; reflexivity|].
  repeat split.
Qed.

Lemma dispatcher_closes_response_on_return_witness :
  let evs := [HttpPost call_start; Resume 0; Resume 0; Resume 0; Resume 0] in
  let t := mkTask call_start 1 0 [] (Returns tt) true in
  tasks (run playing_handler evs load) !! 0 = Some t
  ∧ ∃ res, responses (run playing_handler evs load) !! 0 = Some res
           ∧ Express.endCalls res = 1
           ∧ Express.finished res = true.
Proof.
  intros evs t.
  assert (tasks (run playing_handler evs load) !! 0 = Some t) as Hk
    by (vm_compute; reflexivity).
  split; [exact Hk|].
  exact (proj1 (proj2 (dispatcher_closes_response_on_return
                         playing_handler evs 0 t Hk))).
Defined.

(** Two requests whose handlers run interleaved: each builder holds the
    actions of its own handler. *)
Lemma dispatcher_builders_witness :
  let evs := [HttpPost call_a; Resume 0; HttpPost call_b; Resume 1; Resume 0;
              Resume 1; Resume 1; Resume 0] in
  let p := run playing_handler evs load in
  (vr_actions <$> (store p !! 1 ≫= λ o, if o is OVoiceResponse b then Some b else None))
    = Some ["a.wav"; "hangup"]
  ∧ (vr_actions <$> (store p !! 2 ≫= λ o, if o is OVoiceResponse b then Some b else None))
    = Some ["b.wav"; "hangup"]
  ∧ (∀ i j ti tj, tasks p !! i = Some ti → tasks p !! j = Some tj →
       i ≠ j → t_builder ti ≠ t_builder tj).
Proof.
  intros evs p.
  split; [vm_compute; reflexivity|]. split; [vm_compute; reflexivity|].
  exact (proj1 (proj2 (dispatcher_builders_are_fresh_and_separate
                         playing_handler evs call_a))).
Defined.

(** C3, as stated, fails: the bus is there before any server is
    constructed, and constructing a server creates no object. *)
Lemma event_bus_predates_server_construction :
  servers load = []
  ∧ store load !! voiceEvents load = Some OVoiceEvents
  ∧ store (constructor None load) = store load
  ∧ store (constructor None (constructor None load)) = store load.
Proof. repeat split. Qed.

End DispatcherScenarios.

(** ** Waiting for an event *)

Section WaitFacts.
Import Events.
Context {M : Type}.
Variable pred : M → bool.
Implicit Types (b : bus) (w : wait M) (os pre post : list (occurrence M)).
Implicit Types (h r t : nat) (m : M).

(** Removing a subscription removes it, and no other. *)
Lemma unsubscribe_gone h b : h ∉ listeners (unsubscribe h b).
Proof. unfold unsubscribe. simpl. rewrite list_elem_of_filter. tauto. Qed.

Lemma unsubscribe_other h h' b :
  h' ≠ h → h' ∈ listeners (unsubscribe h b) ↔ h' ∈ listeners b.
Proof. intros Hne. unfold unsubscribe. simpl. rewrite list_elem_of_filter. tauto. Qed.

Lemma unsubscribe_idemp h b : unsubscribe h (unsubscribe h b) = unsubscribe h b.
Proof.
  unfold unsubscribe. simpl. f_equal.
  induction (listeners b) as [|x l IH]; [done|].
  rewrite !filter_cons. destruct (decide (x ≠ h)) as [Hx|Hx].
  - rewrite filter_cons. rewrite decide_True by done. by rewrite IH.
  - done.
Qed.

(** Once the caller has resumed, nothing that occurs changes the bus or
    the result. *)
Lemma unfold_resumed os b w :
  is_Some (w_result w) → unfold_ pred os (b, w) = (b, w).
Proof.
  intros [o Ho]. induction os as [|[m|] os IH]; [done|..];
    unfold unfold_ in *; simpl; by rewrite Ho.
Qed.

Lemma elapsed_cons_tick os : elapsed (@Tick M :: os) = S (elapsed os).
Proof. reflexivity. Qed.

Lemma elapsed_cons_bcast m os : elapsed (Bcast m :: os) = elapsed os.
Proof. reflexivity. Qed.

(** While no broadcast satisfies the predicate and the timeout has not
    elapsed, the call stays suspended and subscribed. *)
Lemma unfold_suspended pre : ∀ b h r,
  elapsed pre < r →
  forallb (λ o, negb (matches pred o)) pre = true →
  unfold_ pred pre (b, mkWait h r None) = (b, mkWait h (r - elapsed pre) None).
Proof.
  induction pre as [|[m|] pre IH]; intros b h r Hlt Hno.
  - simpl. by rewrite Nat.sub_0_r.
  - simpl in Hno. apply andb_prop in Hno as [Hm Hno].
    apply negb_true_iff in Hm.
    rewrite elapsed_cons_bcast in *.
    unfold unfold_ in *. simpl. rewrite Hm, andb_false_r. by apply IH.
  - simpl in Hno. rewrite elapsed_cons_tick in *.
    unfold unfold_ in *. simpl.
    destruct r as [|[|r]]; [lia..|]. simpl.
    rewrite IH; [done|lia|done].
Qed.

(** A broadcast that satisfies the predicate resumes a suspended,
    subscribed call with that message and removes the subscription. *)
Lemma unfold_event pre m post b h r :
  h ∈ listeners b →
  elapsed pre < r →
  forallb (λ o, negb (matches pred o)) pre = true →
  pred m = true →
  unfold_ pred (pre ++ Bcast m :: post) (b, mkWait h r None)
    = (unsubscribe h b, mkWait h (r - elapsed pre) (Some (Event m))).
Proof.
  intros Hin Hlt Hno Hm. unfold unfold_. rewrite foldl_app.
  fold (unfold_ pred pre (b, mkWait h r None)).
  rewrite unfold_suspended by done. simpl.
  rewrite bool_decide_true by done. rewrite Hm. simpl.
  by apply unfold_resumed.
Qed.

(** When the timeout elapses with no such broadcast, the call resumes
    with the timeout outcome and its subscription is removed. *)
Lemma unfold_timeout pre : ∀ post b h r,
  0 < r →
  elapsed pre = r →
  forallb (λ o, negb (matches pred o)) pre = true →
  unfold_ pred (pre ++ post) (b, mkWait h r None)
    = (unsubscribe h b, mkWait h 0 (Some Timeout)).
Proof.
  induction pre as [|[m|] pre IH]; intros post b h r Hpos Hel Hno.
  - change (0 = r) in Hel. lia.
  - simpl in Hno. apply andb_prop in Hno as [Hm Hno].
    apply negb_true_iff in Hm.
    rewrite elapsed_cons_bcast in *.
    unfold unfold_ in *. simpl. rewrite Hm, andb_false_r. by apply IH.
  - simpl in Hno. rewrite elapsed_cons_tick in *.
    unfold unfold_ in *. simpl.
    destruct r as [|[|r]]; [lia| |].
    + simpl. by apply unfold_resumed.
    + simpl. apply IH; [lia|lia|done].
Qed.

(** C4. For every call of [waitForEvent(predicate, t)]: when a broadcast
    message that satisfies the predicate is delivered after the call and
    before [t] has elapsed, the call resolves with the first such message;
    when [t] elapses with no such message, it resolves with the timeout
    outcome, which is a result and not a failure of the call.  In both
    cases the subscription of the call is removed from the bus, and the
    other listeners are as they were. *)
Theorem waitForEvent_resolves_or_times_out t b os :
  let h := next_handle b in
  let final := unfold_ pred os (waitForEvent t b) in
  (∀ pre m post,
     os = pre ++ Bcast m :: post →
     elapsed pre < t →
     forallb (λ o, negb (matches pred o)) pre = true →
     pred m = true →
     w_result (final.2) = Some (Event m)
     ∧ (h ∉ listeners (final.1))
     ∧ (∀ h', h' ≠ h → (h' ∈ listeners (final.1) ↔ h' ∈ listeners b)))
  ∧ (∀ pre post,
       os = pre ++ post →
       elapsed pre = t →
       forallb (λ o, negb (matches pred o)) pre = true →
       w_result (final.2) = Some Timeout
       ∧ (h ∉ listeners (final.1))
       ∧ (∀ h', h' ≠ h → (h' ∈ listeners (final.1) ↔ h' ∈ listeners b))).
Proof.
  intros h final.
  pose (b' := (subscribe b).2).
  assert (h ∈ listeners b') as Hin.
  { apply elem_of_app. right. by apply list_elem_of_singleton. }
  assert (∀ h', h' ≠ h →
    (h' ∈ listeners (unsubscribe h b') ↔ h' ∈ listeners b)) as Hothers.
  { intros h' Hne. rewrite unsubscribe_other by done.
    unfold b', subscribe. cbn [snd listeners].
    rewrite elem_of_app, list_elem_of_singleton. tauto. }
  assert (∀ o, final = (unsubscribe h b', o) →
    (h ∉ listeners (final.1))
    ∧ (∀ h', h' ≠ h → (h' ∈ listeners (final.1) ↔ h' ∈ listeners b))) as Hbus.
  { intros o ->. cbn [fst]. split; [apply unsubscribe_gone|exact Hothers]. }
  split.
  - intros pre m post -> Hlt Hno Hm.
    destruct t as [|t]; [lia|].
    assert (final = (unsubscribe h b',
                     mkWait h (S t - elapsed pre) (Some (Event m)))) as Hfinal.
    { unfold final.
      change (waitForEvent (S t) b) with (b', mkWait h (S t) (@None (outcome M))).
      by apply unfold_event. }
    split; [by rewrite Hfinal|]. by apply (Hbus _ Hfinal).
  - intros pre post -> Hel Hno.
    assert (final = (unsubscribe h b', mkWait h 0 (Some Timeout))) as Hfinal.
    { unfold final. destruct t as [|t].
      - change (waitForEvent 0 b)
          with (unsubscribe h b', mkWait h 0 (Some (@Timeout M))).
        apply unfold_resumed. by eexists.
      - change (waitForEvent (S t) b)
          with (b', mkWait h (S t) (@None (outcome M))).
        apply unfold_timeout; [lia|done..]. }
    split; [by rewrite Hfinal|]. by apply (Hbus _ Hfinal).
Qed.

End WaitFacts.

Section WaitScenarios.
Import Events Scenario.

(** A digit arrives after one millisecond and some other message, with a
    timeout of three: the call resolves with it.  Nothing of the kind
    arrives within three milliseconds: the call times out. *)
Lemma waitForEvent_witness :
  let b := mkBus 1 [0] in
  (w_result (unfold_ is_digit [Tick; Bcast "noise"; Bcast "digit"; Tick; Tick]
               (waitForEvent 3 b)).2 = Some (Event "digit")
   ∧ listeners (unfold_ is_digit [Tick; Bcast "noise"; Bcast "digit"; Tick; Tick]
                  (waitForEvent 3 b)).1 = [0])
  ∧ (w_result (unfold_ is_digit [Tick; Bcast "noise"; Tick; Tick; Bcast "digit"]
                 (waitForEvent 3 b)).2 = Some Timeout
     ∧ listeners (unfold_ is_digit [Tick; Bcast "noise"; Tick; Tick; Bcast "digit"]
                    (waitForEvent 3 b)).1 = [0]).
Proof.
  intros b. split; (split; [|reflexivity]).
  - apply (proj1 (waitForEvent_resolves_or_times_out is_digit 3 b
                    [Tick; Bcast "noise"; Bcast "digit"; Tick; Tick])
             [Tick; Bcast "noise"] "digit" [Tick; Tick]);
      [reflexivity | unfold elapsed; simpl; lia | reflexivity | reflexivity].
  - apply (proj2 (waitForEvent_resolves_or_times_out is_digit 3 b
                    [Tick; Bcast "noise"; Tick; Tick; Bcast "digit"])
             [Tick; Bcast "noise"; Tick; Tick] [Bcast "digit"]);
      reflexivity.
Defined.

End WaitScenarios.

(** ** Listing functions *)

Section PagingFacts.
Import Funcs Paging.
Implicit Types (f : Func) (e : Error) (request : ListFuncsRequest).
Implicit Types (svc : ListFuncsRequestPB → option Error * option ListFuncsResponsePB).

(** The object built for a function of a page is the one [getFunc]
    resolves with for that function: the order of the fields in the two
    literals differs, the objects do not. *)
Lemma func_entry_fields f : func_entry f = func_fields f.
Proof.
  apply map_eq. intros key. unfold func_entry, func_fields.
  destruct (decide (key = "replicas")) as [->|Hr]; [done|].
  destruct (decide (key = "invocationCount")) as [->|Hi]; [done|].
  destruct (decide (key = "name")) as [->|Hn]; [done|].
  destruct (decide (key = "image")) as [->|Him]; [done|].
  by rewrite !lookup_insert_ne by done.
Qed.

(** X1. When the callback of [listFuncs] is given no error and a page, the
    promise resolves with the page's next token and one object per
    function of the page, in the order of the page, each being the
    five-field object [getFunc] resolves with for that function. *)
Theorem listFuncs_resolves_with_page svc request :
  match svc (listFuncs_request request) with
  | (None, Some page) =>
      ∃ r, listFuncs svc request = Fulfilled r
           ∧ nextPageToken r = getNextPageToken page
           ∧ length (funcs r) = length (getFuncsList page)
           ∧ ∀ i, funcs r !! i = func_fields <$> getFuncsList page !! i
  | _ => True
  end.
Proof.
  unfold listFuncs.
  destruct (svc _) as [[e|] [page|]]; [done..| |done].
  eexists. split; [reflexivity|]. simpl.
  split; [done|]. split; [by rewrite length_fmap|].
  intros i. rewrite list_lookup_fmap.
  destruct (getFuncsList page !! i) as [f|]; [|done].
  simpl. by rewrite func_entry_fields.
Qed.

(** X2. When the callback of [listFuncs] is given an error, the promise is
    rejected with that error, with or without a page beside it: the
    [resolve] that follows the [reject] has no effect.  When it is given
    neither an error nor a page, the promise is never settled. *)
Theorem listFuncs_rejects_on_error svc request :
  match svc (listFuncs_request request) with
  | (Some e, _) => listFuncs svc request = Rejected e
  | (None, None) => listFuncs svc request = Pending
  | (None, Some _) => Promise.settled (listFuncs svc request) = true
  end.
Proof.
  unfold listFuncs. by destruct (svc _) as [[e|] [page|]].
Qed.

End PagingFacts.

(** ** The packaging steps of a deployment *)

Section PackagingFacts.
Import Funcs Packaging.
Context {S : Type}.
Implicit Types (env : Env) (request : DeployFuncRequest) (s : S).
Implicit Types (emitter : option (message → S → S)).

(** The traced steps end as the steps of [deployFunc] do. *)
Lemma package_traced_outcome env request :
  (package_traced env request).2 = package env request.
Proof.
  unfold package_traced, package.
  destruct (JS.truthy _); [|done].
  destruct (cleanupTmpDir env _); [|done].
  by destruct (copyFuncAtTmp env _ _).
Qed.

Lemma truthy_false (o : option string) :
  JS.truthy o = false ↔ o = None ∨ o = Some "".
Proof.
  destruct o as [[|a s']|]; simpl; split; intros H; try done; eauto;
    by destruct H.
Qed.

(** X4. A request with no path to the function, or with the empty string
    for it, is deployed from the base image: none of the packaging helpers
    is called, nothing is uploaded, and the call goes straight to the
    stream. *)
Theorem deployFunc_without_path env request emitter s :
  dp_pathToFunc request = None ∨ dp_pathToFunc request = Some "" →
  (package_traced env request).1 = []
  ∧ package env request = Returns tt
  ∧ deployFunc env request emitter s
      = run_stream emitter
          (svc_deployFunc env (buildDeployFuncRequest env request))
          (mkDeploy Pending s).
Proof.
  intros Hpath. apply truthy_false in Hpath.
  unfold deployFunc, package_traced, package. by rewrite Hpath.
Qed.

(** X5. A request with a path to the function is packaged first: the
    clean-up is always called; the copy is called exactly when the clean-up
    has succeeded, and the upload exactly when the copy has succeeded too,
    in that order and with nothing else; the upload is of the file
    /tmp/<name>.tgz to the bucket "funcs".  The packaging ends as the last
    call made ends: when that call throws, the promise is rejected with
    its error, the stream is never opened and the emitter never called. *)
Theorem deployFunc_packages_in_order env request emitter s :
  JS.truthy (dp_pathToFunc request) = true →
  let name := dp_name request in
  let path := default "" (dp_pathToFunc request) in
  let calls := (package_traced env request).1 in
  calls `prefix_of` [Cleanup name; Copy path name;
                      Upload ("/tmp/" +:+ name +:+ ".tgz") "funcs"]
  ∧ Cleanup name ∈ calls
  ∧ (Copy path name ∈ calls ↔ cleanupTmpDir env name = Returns tt)
  ∧ (Upload ("/tmp/" +:+ name +:+ ".tgz") "funcs" ∈ calls
       ↔ cleanupTmpDir env name = Returns tt
         ∧ copyFuncAtTmp env path name = Returns tt)
  ∧ (∀ e, cleanupTmpDir env name = Throws e → package env request = Throws e)
  ∧ (∀ e, cleanupTmpDir env name = Returns tt →
          copyFuncAtTmp env path name = Throws e →
          package env request = Throws e)
  ∧ (cleanupTmpDir env name = Returns tt →
     copyFuncAtTmp env path name = Returns tt →
     package env request
       = uploadObject env ("/tmp/" +:+ name +:+ ".tgz") "funcs")
  ∧ (∀ e, package env request = Throws e →
          deployFunc env request emitter s = mkDeploy (Rejected e) s).
Proof.
  intros Hpath name path calls. subst name path calls.
  assert (∀ e, package env request = Throws e →
    deployFunc env request emitter s = mkDeploy (Rejected e) s) as Hrej.
  { intros e He. unfold deployFunc. by rewrite He. }
  revert Hrej. unfold package_traced, package. rewrite Hpath.
  destruct (cleanupTmpDir env _) as [[]|e1] eqn:Hclean;
    [destruct (copyFuncAtTmp env _ _) as [[]|e2] eqn:Hcopy|];
    cbn [fst]; intros Hrej.
  - split; [done|]. split; [by apply elem_of_cons; left|].
    split; [split; [done|intros _; by do 1 right; left] |].
    split; [split; [done|intros _; by do 2 right; left] |].
    by repeat split.
  - split; [by eexists [_]|]. split; [by apply elem_of_cons; left|].
    split; [split; [done|intros _; by do 1 right; left] |].
    split.
    { split; [|by intros [_ ?]].
      rewrite !elem_of_cons, elem_of_nil. by intros [?|[?|?]]. }
    split; [done|]. split; [by intros e _ [= ->]|]. by split.
  - split; [by eexists [_; _]|]. split; [by apply elem_of_cons; left|].
    split.
    { split; [|done]. rewrite !elem_of_cons, elem_of_nil. by intros [?|?]. }
    split.
    { split; [|by intros [? _]].
      rewrite !elem_of_cons, elem_of_nil. by intros [?|?]. }
    split; [by intros e [= ->]|]. by repeat split.
Qed.

Lemma settled_first_terminal (evs : list stream_event) :
  Promise.settled (first_terminal evs) = existsb is_terminal evs.
Proof. induction evs as [|[m| |e] evs IH]; done. Qed.

(** X6. The promise of [deployFunc] is settled by the stream only through
    a terminal event: once the stream is open, the promise is settled
    exactly when the stream has emitted an end or an error, so that a
    stream that only emits messages, however many, leaves it pending; the
    client sets no timeout of its own. *)
Theorem deployFunc_settled_iff_terminal env request emitter s :
  match package env request with
  | Throws _ => Promise.settled (promise (deployFunc env request emitter s)) = true
  | Returns _ =>
      Promise.settled (promise (deployFunc env request emitter s))
        = existsb is_terminal
            (svc_deployFunc env (buildDeployFuncRequest env request))
      ∧ (∀ ms, svc_deployFunc env (buildDeployFuncRequest env request)
                 = Data <$> ms →
               deployFunc env request emitter s
                 = mkDeploy Pending (forwarded emitter ms s))
  end.
Proof.
  unfold deployFunc. destruct (package env request) as [[]|e]; [|done].
  pose proof (run_stream_sink emitter
                (svc_deployFunc env (buildDeployFuncRequest env request))
                (mkDeploy Pending s)) as Hsink.
  pose proof (run_stream_promise emitter
                (svc_deployFunc env (buildDeployFuncRequest env request)) s)
    as Hprom.
  destruct (run_stream emitter _ (mkDeploy Pending s)) as [p s'].
  simpl in *. subst p s'. split; [apply settled_first_terminal|].
  intros ms ->. rewrite data_of_data. f_equal.
  by induction ms.
Qed.

End PackagingFacts.

Section PackagingScenarios.
Import Funcs Packaging Scenario Cases.

Lemma deployFunc_without_path_witness :
  (package_traced (service (None, None) (None, ∅) [Data "build"; End_])
     deploy_image_only).1 = []
  ∧ deployFunc (service (None, None) (None, ∅) [Data "build"; End_])
      deploy_image_only (Some recorder) []
    = mkDeploy (Fulfilled tt) ["build"].
Proof.
  destruct (deployFunc_without_path
              (service (None, None) (None, ∅) [Data "build"; End_])
              deploy_image_only (Some recorder) [] (or_intror eq_refl))
    as (Hcalls & _ & Hrun).
  split; [exact Hcalls|]. rewrite Hrun. reflexivity.
Defined.

Lemma deployFunc_packages_in_order_witness :
  (package_traced (failing_copy [Data "build"; End_]) deploy_hello).1
    = [Cleanup "hello"; Copy "./hello" "hello"]
  ∧ ∃ e, package (failing_copy [Data "build"; End_]) deploy_hello = Throws e
         ∧ deployFunc (failing_copy [Data "build"; End_]) deploy_hello
             (Some recorder) []
           = mkDeploy (Rejected e) [].
Proof.
  split; [reflexivity|].
  exists disk_full.
  split; [reflexivity|].
  apply (deployFunc_packages_in_order (failing_copy [Data "build"; End_])
           deploy_hello (Some recorder) [] eq_refl).
  reflexivity.
Defined.

End PackagingScenarios.

(** ** Constructing a server and listening *)

Section ListenFacts.
Import Voice Observe.
Variable handler : JS.object → ref → script.
Implicit Types (p : Process) (cfg : option JS.object) (key : string).
Implicit Types (ev : event) (evs : list event).

(** A setting of the effective configuration is the caller's when the
    caller gave one, and the default otherwise. *)
Lemma get_effective key cfg :
  get key (merge defaultServerConfig (default defaultServerConfig cfg))
    = setting key cfg.
Proof.
  unfold setting, get. rewrite merge_lookup.
  destruct cfg as [given|]; simpl.
  - by destruct (given !! key).
  - by destruct (defaultServerConfig !! key).
Qed.

(** X8. [new VoiceServer(config).listen(handler, port)]: the server
    listens on the port given to [listen], or else, when that is left out
    or is [undefined], on the port of the given configuration, or else on
    3000, and on the address of the given configuration, or else on
    0.0.0.0; the realtime route and the POST route are registered on one
    and the same path, that of the given configuration or else "/", the
    realtime route first; and the log line written by [listen] reports the
    configured port even when [listen] was given another one. *)
Theorem construct_then_listen cfg (port : option value) p :
  let p' := run handler [NewServer cfg; Listen (length (servers p)) port] p in
  log p'
    = log p ++ [LogInitializing;
                LogStarting (setting "bind" cfg) (setting "port" cfg);
                AppListen (port_or port (setting "port" cfg)) (setting "bind" cfg)]
  ∧ routes p'
      = routes p ++ [WS (setting "path" cfg); GET (VStr "/tts/:file");
                     POST (setting "path" cfg)]
  ∧ port_or None (setting "port" cfg) = setting "port" cfg
  ∧ port_or (Some VUndef) (setting "port" cfg) = setting "port" cfg
  ∧ (∀ v, v ≠ VUndef → port_or (Some v) (setting "port" cfg) = v)
  ∧ setting "path" None = VStr "/"
  ∧ setting "port" None = VNum 3000
  ∧ setting "bind" None = VStr "0.0.0.0".
Proof.
  intros p'. subst p'. unfold run. simpl.
  rewrite lookup_app_r by done. rewrite Nat.sub_diag. simpl.
  unfold listen. simpl. rewrite !get_effective.
  rewrite <- !app_assoc.
  repeat split; try done.
  intros v Hv. by destruct v.
Qed.

(** *** The routes of a run *)

Lemma ws_paths_app (rs1 rs2 : list route) :
  ws_paths (rs1 ++ rs2) = ws_paths rs1 ++ ws_paths rs2.
Proof. apply omap_app. Qed.

Lemma post_paths_app (rs1 rs2 : list route) :
  post_paths (rs1 ++ rs2) = post_paths rs1 ++ post_paths rs2.
Proof. apply omap_app. Qed.

Lemma get_paths_app (rs1 rs2 : list route) :
  get_paths (rs1 ++ rs2) = get_paths rs1 ++ get_paths rs2.
Proof. apply omap_app. Qed.

(** Requests, messages and the scheduler leave the servers and the routes
    alone. *)
Lemma resume_servers_routes (k : nat) p :
  servers (resume k p) = servers p ∧ routes (resume k p) = routes p.
Proof.
  unfold resume. destruct (tasks p !! k) as [t|]; [|done].
  destruct (t_done t); [done|].
  destruct (t_todo t); [|done].
  unfold finish. by destruct (t_end t).
Qed.

Lemma http_post_servers_routes (body : JS.object) p :
  servers (http_post handler body p) = servers p
  ∧ routes (http_post handler body p) = routes p.
Proof.
  unfold http_post, post_callback. simpl. by destruct (handler body _).
Qed.

Lemma step_routes p ev :
  servers (step handler p ev) = built (servers p) [ev]
  ∧ ws_paths (routes (step handler p ev))
      = ws_paths (routes p)
        ++ (path_of <$> drop (length (servers p)) (built (servers p) [ev]))
  ∧ post_paths (routes (step handler p ev))
      = post_paths (routes p) ++ (path_of <$> listened (servers p) [ev])
  ∧ get_paths (routes (step handler p ev))
      = get_paths (routes p)
        ++ replicate (length (listened (servers p) [ev])) (VStr "/tts/:file").
Proof.
  destruct ev as [cfg|srv port|body|msg|k]; simpl.
  - rewrite ws_paths_app, post_paths_app, get_paths_app, !app_nil_r.
    by rewrite drop_app_length.
  - rewrite drop_all. destruct (servers p !! srv) as [this|]; simpl.
    + by rewrite ws_paths_app, post_paths_app, get_paths_app, !app_nil_r.
    + by rewrite !app_nil_r.
  - destruct (http_post_servers_routes body p) as [-> ->].
    by rewrite drop_all, !app_nil_r.
  - by rewrite drop_all, !app_nil_r.
  - destruct (resume_servers_routes k p) as [-> ->].
    by rewrite drop_all, !app_nil_r.
Qed.

Lemma built_cons (srvs : list VoiceServer) ev evs :
  built srvs (ev :: evs) = built (built srvs [ev]) evs.
Proof. by destruct ev. Qed.

Lemma listened_cons (srvs : list VoiceServer) ev evs :
  listened srvs (ev :: evs)
    = listened srvs [ev] ++ listened (built srvs [ev]) evs.
Proof.
  destruct ev as [cfg|srv port|body|msg|k]; simpl; try done.
  by destruct (srvs !! srv).
Qed.

Lemma built_grows (srvs : list VoiceServer) evs :
  take (length srvs) (built srvs evs) = srvs.
Proof.
  revert srvs. induction evs as [|ev evs IH]; intros srvs.
  - simpl. by rewrite firstn_all.
  - rewrite built_cons. destruct ev as [cfg| | | |]; simpl; try apply IH.
    pose proof (IH (srvs ++ [effective cfg])) as H.
    apply (f_equal (take (length srvs))) in H.
    rewrite take_take, length_app, Nat.min_l in H by lia.
    by rewrite H, take_app_length.
Qed.

Lemma run_routes evs : ∀ p,
  servers (run handler evs p) = built (servers p) evs
  ∧ ws_paths (routes (run handler evs p))
      = ws_paths (routes p)
        ++ (path_of <$> drop (length (servers p)) (built (servers p) evs))
  ∧ post_paths (routes (run handler evs p))
      = post_paths (routes p) ++ (path_of <$> listened (servers p) evs)
  ∧ get_paths (routes (run handler evs p))
      = get_paths (routes p)
        ++ replicate (length (listened (servers p) evs)) (VStr "/tts/:file").
Proof.
  induction evs as [|ev evs IH]; intros p.
  - simpl. by rewrite drop_all, !app_nil_r.
  - change (run handler (ev :: evs) p) with (run handler evs (step handler p ev)).
    destruct (IH (step handler p ev)) as (Hs & Hws & Hpost & Hget).
    destruct (step_routes p ev) as (Hs1 & Hws1 & Hpost1 & Hget1).
    rewrite Hs, Hws, Hpost, Hget, Hs1, Hws1, Hpost1, Hget1.
    rewrite (listened_cons (servers p) ev evs), (built_cons (servers p) ev evs).
    split; [done|]. split; [|split].
    + rewrite <- app_assoc, <- fmap_app. do 2 f_equal.
      pose proof (built_grows (built (servers p) [ev]) evs) as Hg.
      assert (length (servers p) ≤ length (built (servers p) [ev]))%nat as Hle.
      { destruct ev; simpl; rewrite ?length_app; lia. }
      rewrite <- (take_drop (length (built (servers p) [ev]))
                    (built (built (servers p) [ev]) evs)) at 2.
      by rewrite Hg, drop_app_le.
    + by rewrite <- app_assoc, <- fmap_app.
    + by rewrite <- app_assoc, <- replicate_add, <- length_app.
Qed.

(** X9. In every state the process reaches, the routes of [app] are those
    the constructions and the calls of [listen] so far have registered and
    no others: one realtime route for each server constructed, on its
    configured path and in the order of construction, whether or not the
    server listens; one POST route for each call of [listen], on the
    configured path of the server it was called on, in the order of the
    calls; and one GET route /tts/:file for each call of [listen] as well,
    so that a second call of [listen] registers both routes again.
    Requests, realtime messages and the scheduler register none. *)
Theorem routes_follow_servers evs :
  let p := run handler evs load in
  servers p = built [] evs
  ∧ ws_paths (routes p) = path_of <$> built [] evs
  ∧ post_paths (routes p) = path_of <$> listened [] evs
  ∧ get_paths (routes p)
      = replicate (length (listened [] evs)) (VStr "/tts/:file").
Proof.
  intros p. subst p. exact (run_routes evs load).
Qed.

(** *** One callback for each request *)

Lemma posts_snoc evs ev :
  posts (evs ++ [ev]) = posts evs + (if is_post ev then 1 else 0).
Proof.
  unfold posts. rewrite filter_app, length_app. f_equal.
  rewrite filter_cons, filter_nil. by destruct ev.
Qed.

Lemma step_tasks_length p ev :
  length (tasks (step handler p ev))
    = length (tasks p) + (if is_post ev then 1 else 0).
Proof.
  destruct ev as [cfg|srv port|body|msg|k]; simpl; rewrite ?Nat.add_0_r; try done.
  - by destruct (servers p !! srv).
  - unfold http_post, post_callback. simpl.
    destruct (handler body _). simpl. by rewrite length_app.
  - unfold resume. destruct (tasks p !! k) as [t|]; [|done].
    destruct (t_done t); [done|].
    destruct (t_todo t); simpl; rewrite length_insert; [|done].
    unfold finish. by destruct (t_end t).
Qed.

(** X10. In every state the process reaches, the handler has been invoked
    once for each POST request received and never otherwise: there are as
    many callbacks, started or ended, as requests, as many HTTP responses,
    and one builder for each beside the event bus; constructing servers,
    listening, realtime messages and the scheduler create none. *)
Theorem one_callback_per_post evs :
  let p := run handler evs load in
  length (tasks p) = posts evs
  ∧ length (responses p) = posts evs
  ∧ length (store p) = S (posts evs).
Proof.
  intros p. subst p.
  assert (length (tasks (run handler evs load)) = posts evs) as Hlen.
  { induction evs as [|ev evs IH] using rev_ind; [done|].
    by rewrite run_snoc, step_tasks_length, posts_snoc, IH. }
  pose proof (inv_run handler evs) as Hinv.
  rewrite (inv_len_res _ _ Hinv), (inv_len_store _ _ Hinv). by rewrite Hlen.
Qed.

(** X11. Once the callback of a request has run to its end, the builder of
    the request holds all the actions of its handler, in the order the
    handler added them, whatever other requests, realtime messages and
    handler steps came in between; this is so after a normal return and
    after a throw alike. *)
Theorem completed_builder_holds_all_actions evs (k : nat) (t : task) :
  tasks (run handler evs load) !! k = Some t →
  t_done t = true →
  store (run handler evs load) !! t_builder t
    = Some (OVoiceResponse
              (mkVoiceResponse (t_body t) (voiceEvents (run handler evs load))
                 (actions_of (handler (t_body t) (t_builder t)).1))).
Proof.
  intros Hk Hdone.
  pose proof (inv_run handler evs) as Hinv.
  destruct (inv_task _ _ Hinv k t Hk) as [Ha _ _ Hd [past [He Hf]] _].
  rewrite (Hd Hdone), app_nil_r in He.
  by rewrite Ha, (inv_bus _ _ Hinv), He.
Qed.

End ListenFacts.

Section ListenScenarios.
Import Voice Scenario.

(** A handler that throws after adding an action: the action is on the
    builder once the callback has ended. *)
Lemma completed_builder_witness :
  let evs := [HttpPost call_start; Resume 0; Resume 0] in
  store (run failing_handler evs load) !! 1
    = Some (OVoiceResponse (mkVoiceResponse call_start 0 ["play"])).
Proof.
  intros evs.
  exact (completed_builder_holds_all_actions failing_handler evs 0
           (mkTask call_start 1 0 [] (Throws boom) true) eq_refl eq_refl).
Defined.

End ListenScenarios.
